(** * SpeckMAC-D: a shallow embedding of [SpeckMacModule.cc]

    The module is an OMNeT++ simple module: every piece of logic runs inside
    [handleMessage], to completion, on one message at a time.  The embedding
    keeps that shape.  The mutable members of the class, together with the
    part of the simulation kernel the module talks to (the simulation clock,
    the future-event set holding the self-messages, the messages sent out of
    the gates and the text written to [ev]) form one record [Mac]; every
    member function is a function on that record.

    Conventions.
    - C++ [int] members are [Z].  The ring indices stay within [-1, N] and
      frame lengths are bounded by the configured maximum, so no wrap-around
      arises on them; the one [int] product formed from a configuration
      value alone is passed through [int_wrap].
    - C++ [double] members, and the simulation time ([simtime_t], a [double]
      in the kernel this module is written for), are IEEE 754 binary64
      numbers: values of the Standard Library's [spec_float], with its
      operations at precision 53 and maximal exponent 1024.  Every [+], [-],
      [*] and [/] of the source on doubles is one such operation, rounded to
      nearest, ties to even; infinities and NaN arise as they do in the
      source.  [(int) x] truncates towards zero.
    - A pointer to a message is the identifier the kernel gave the message
      when it was created, [None] is [NULL].  A message that was cancelled
      and deleted, or delivered and deleted, is no longer in the future-event
      set; [isScheduled] on such a pointer answers [false].
    - A frame pointer stored in the ring is the frame itself; a slot that was
      never written holds [None]. *)

From Stdlib Require Import ZArith QArith Qround Lia Bool Ascii String SpecFloat.
From stdpp Require Import base list strings pretty.

Local Open Scope Z_scope.

(** ** Binary64 arithmetic *)

Definition double : Type := spec_float.

Definition prec : Z := 53.
Definition emax : Z := 1024.

Definition dadd : double -> double -> double := SFadd prec emax.
Definition dsub : double -> double -> double := SFsub prec emax.
Definition dmul : double -> double -> double := SFmul prec emax.
Definition ddiv : double -> double -> double := SFdiv prec emax.

(** [x <= y], [x < y] and [x > y]; false when an operand is NaN. *)
Definition dle (x y : double) : bool := SFleb x y.
Definition dlt (x y : double) : bool := SFltb x y.
Definition dgt (x y : double) : bool := SFltb y x.

Declare Scope double_scope.
Delimit Scope double_scope with D.
Bind Scope double_scope with double.
Infix "+" := dadd : double_scope.
Infix "-" := dsub : double_scope.
Infix "*" := dmul : double_scope.
Infix "/" := ddiv : double_scope.

Global Arguments dadd : simpl never.
Global Arguments dsub : simpl never.
Global Arguments dmul : simpl never.
Global Arguments ddiv : simpl never.
Global Arguments dle : simpl never.
Global Arguments dlt : simpl never.
Global Arguments dgt : simpl never.

(** [(double) z]: the integer [z] rounded to binary64 (exact below 2^53). *)
Definition int_to_double (z : Z) : double :=
  binary_normalize prec emax z 0 false.

(** The decimal literal [n / d] of the source, for integers below 2^53: the
    double nearest to the quotient. *)
Definition dlit (n d : Z) : double :=
  (int_to_double n / int_to_double d)%D.

(** A [float] widened to [double]: the same number, with a mantissa of
    53 bits. *)
Definition float_to_double (x : spec_float) : double :=
  match x with
  | S754_finite s m e => binary_round prec emax s m e
  | _ => x
  end.

(** The literal [n / d] with the suffix [f]: the binary32 number nearest to
    the quotient, widened. *)
Definition flit (n d : Z) : double :=
  float_to_double
    (SFdiv 24 128 (binary_normalize 24 128 n 0 false)
                  (binary_normalize 24 128 d 0 false)).

(** The literals of the source. *)
Definition d_0 : double := S754_zero false.          (* 0.0 *)
Definition d_half : double := dlit 1 2.              (* 0.5 *)
Definition d_8 : double := int_to_double 8.          (* 8.0 *)
Definition d_1000 : double := int_to_double 1000.    (* 1000.0 *)
Definition d_milli : double := dlit 1 1000.          (* 0.001 *)

Definition INT_MIN : Z := - 2 ^ 31.
Definition INT_MAX : Z := 2 ^ 31 - 1.

(** The integer part of a finite double. *)
Definition truncate (x : double) : Z :=
  match x with
  | S754_finite s m e =>
      let a := match e with
               | Zneg p => Z.pos m / 2 ^ Z.pos p
               | _ => Z.pos m * 2 ^ e
               end in
      if s then - a else a
  | _ => 0
  end.

(** [(int) x]: truncation towards zero.  For a NaN, an infinity, or an
    integer part outside the range of [int], C++ leaves the conversion
    undefined; the value given here is the one the conversion instruction
    of x86-64 produces, [INT_MIN]. *)
Definition double_to_int (x : double) : Z :=
  match x with
  | S754_zero _ => 0
  | S754_finite _ _ _ =>
      let z := truncate x in
      if ((INT_MIN <=? z) && (z <=? INT_MAX))%bool then z else INT_MIN
  | _ => INT_MIN
  end.

Global Arguments int_to_double : simpl never.
Global Arguments dlit : simpl never.
Global Arguments flit : simpl never.
Global Arguments double_to_int : simpl never.

(** Two's-complement reduction to the 32-bit [int] range. *)
Definition int_wrap (z : Z) : Z :=
  (z + 2 ^ 31) mod 2 ^ 32 - 2 ^ 31.

(** The rational number a finite double stands for. *)
Definition value (x : double) : Q :=
  match x with
  | S754_finite s m e =>
      let a := match e with
               | Zneg p => Z.pos m # 2 ^ p
               | _ => inject_Z (Z.pos m * 2 ^ e)
               end in
      if s then (- a)%Q else a
  | _ => 0%Q
  end.

Definition is_finite (x : double) : bool :=
  match x with
  | S754_zero _ | S754_finite _ _ _ => true
  | _ => false
  end.

(** The binary64 number just below 0.5. *)
Definition below_half : double := S754_finite false (2 ^ 53 - 1) (-54).

(** [M / 2^n], rounded to the nearest integer, to the even one on a tie. *)
Definition rne (M n : Z) : Z :=
  let q := M / 2 ^ n in
  match 2 * (M mod 2 ^ n) ?= 2 ^ n with
  | Lt => q
  | Eq => if Z.even q then q else q + 1
  | Gt => q + 1
  end.

(** The mantissa and exponent [binary_round_aux] arrives at for the integer
    [M] scaled by [2^e]: one rounding shift, and one more shift if the
    rounding carried into a further digit. *)
Definition round_shift (M e : Z) : Z * Z :=
  let n := fexp prec emax (Zdigits2 M + e) - e in
  let m2 := if 0 <? n then rne M n else M in
  let e1 := if 0 <? n then e + n else e in
  let n2 := fexp prec emax (Zdigits2 m2 + e1) - e1 in
  if 0 <? n2 then (m2 / 2 ^ n2, e1 + n2) else (m2, e1).

(** ** Messages *)

(** The message kinds the module receives, sends to itself or sends out
    (enumerators of the generated message headers). *)
Inductive MsgKind : Type :=
| APP_NODE_STARTUP
| MAC_SELF_SET_RADIO_SLEEP
| MAC_SELF_WAKEUP_RADIO
| NET_FRAME
| MAC_FRAME_SELF_PUSH_TX_BUFFER
| MAC_SELF_INITIATE_TX
| MAC_SELF_PERFORM_CARRIER_SENSE
| RADIO_2_MAC_SENSED_CARRIER
| MAC_SELF_EXIT_CARRIER_SENSE
| MAC_SELF_CHECK_TX_BUFFER
| RADIO_2_MAC_STARTED_TX
| RADIO_2_MAC_STOPPED_TX
| MAC_FRAME
| RESOURCE_MGR_OUT_OF_ENERGY
| MAC_2_RADIO_ENTER_SLEEP
| MAC_2_RADIO_ENTER_LISTEN
| MAC_2_RADIO_ENTER_TX
| MAC_2_RADIO_SENSE_CARRIER
| MAC_2_NETWORK_FULL_BUFFER.

Global Instance MsgKind_eq_dec : EqDecision MsgKind.
Proof. solve_decision. Defined.

(** enum MacStates *)
Inductive MacStates : Type :=
| MAC_STATE_DEFAULT
| MAC_STATE_TX
| MAC_STATE_CARRIER_SENSING
| MAC_STATE_EXPECTING_RX
| MAC_STATE_TRY_TX.

Global Instance MacStates_eq_dec : EqDecision MacStates.
Proof. solve_decision. Defined.

(** The numeric value of each state, as the enum gives it. *)
Definition MacStates_value (s : MacStates) : Z :=
  match s with
  | MAC_STATE_DEFAULT => 2204
  | MAC_STATE_TX => 2205
  | MAC_STATE_CARRIER_SENSING => 2206
  | MAC_STATE_EXPECTING_RX => 2207
  | MAC_STATE_TRY_TX => 2208
  end.

(** What [radioModule->isCarrierSenseValid()] answers: 1 when the indication
    is valid, otherwise the reason why it is not. *)
Inductive CarrierSenseCode : Type :=
| CS_VALID
| RADIO_IN_TX_MODE
| RADIO_SLEEPING
| RADIO_NON_READY
| CS_UNKNOWN_REASON.

(** Network_GenericFrame: the routing destination string and the length. *)
Record Network_GenericFrame : Type := mkNetFrame {
  destCtrl : string;
  netByteLength : Z;
  netData : list Z
}.

(** MAC_GenericFrame: header, length, and the encapsulated network frame. *)
Record MAC_GenericFrame : Type := mkMacFrame {
  srcID : Z;
  destID : Z;
  byteLength : Z;
  encapsulated : option Network_GenericFrame
}.

Inductive Payload : Type :=
| NoPayload
| NetPayload (nf : Network_GenericFrame)
| MacPayload (mf : MAC_GenericFrame).

(** A cMessage: its kind and, for the frame classes, the frame. *)
Record cMessage : Type := mkMsg {
  kind : MsgKind;
  payload : Payload
}.

Definition MAC_ControlMessage (k : MsgKind) : cMessage := mkMsg k NoPayload.

(** An entry of the future-event set: a self-message, the identifier that
    stands for its address, and its arrival time. *)
Record Scheduled : Type := mkScheduled {
  sid : nat;
  arrival : double;
  smsg : cMessage
}.

(** A message handed to an output gate: [send] has delay 0. *)
Inductive Gate : Type := toRadioModule | toNetworkModule.

Global Instance Gate_eq_dec : EqDecision Gate.
Proof. solve_decision. Defined.

Record Sent : Type := mkSent {
  gate : Gate;
  delay : double;
  content : cMessage
}.

(** What the handler reads from outside during one event: the value of
    [dblrand()] and the radio's answer to [isCarrierSenseValid()]. *)
Record Env : Type := mkEnv {
  dblrand : double;
  isCarrierSenseValid : CarrierSenseCode
}.

(** ** The module *)

Record Mac : Type := mkMac {
  (* NED parameters *)
  sleepInterval : double;
  listenInterval : double;
  randomTxOffset : double;
  maxMacFrameSize : Z;
  macBufferSize : Z;
  macFrameOverhead : Z;
  (* custom members *)
  schedTXBuffer : list (option MAC_GenericFrame);
  dutyCycleSleepMsg : option nat;
  dutyCycleWakeupMsg : option nat;
  selfExitCSMsg : option nat;
  doTx : bool;
  self : Z;
  macState : MacStates;
  headTxBuffer : Z;
  tailTxBuffer : Z;
  disabled : bool;
  phyLayerOverhead : Z;
  redundancy : Z;
  epsilon : double;
  cpuClockDrift : double;
  radioDataRate : double;
  radioDelayForValidCS : double;
  dataTXtime : double;
  lastWakeupTime : double;
  (* the simulation kernel, as seen from the module *)
  simTime : double;
  fes : list Scheduled;
  nextId : nat;
  outbox : list Sent;
  ev : list string
}.

(** Field updates, one per member that the code assigns. *)
Definition set_schedTXBuffer (v : list (option MAC_GenericFrame)) (m : Mac) : Mac :=
  mkMac (sleepInterval m) (listenInterval m) (randomTxOffset m) (maxMacFrameSize m)
        (macBufferSize m) (macFrameOverhead m) v (dutyCycleSleepMsg m)
        (dutyCycleWakeupMsg m) (selfExitCSMsg m) (doTx m) (self m) (macState m)
        (headTxBuffer m) (tailTxBuffer m) (disabled m) (phyLayerOverhead m)
        (redundancy m) (epsilon m) (cpuClockDrift m) (radioDataRate m)
        (radioDelayForValidCS m) (dataTXtime m) (lastWakeupTime m) (simTime m)
        (fes m) (nextId m) (outbox m) (ev m).

Definition set_dutyCycleSleepMsg (v : option nat) (m : Mac) : Mac :=
  mkMac (sleepInterval m) (listenInterval m) (randomTxOffset m) (maxMacFrameSize m)
        (macBufferSize m) (macFrameOverhead m) (schedTXBuffer m) v
        (dutyCycleWakeupMsg m) (selfExitCSMsg m) (doTx m) (self m) (macState m)
        (headTxBuffer m) (tailTxBuffer m) (disabled m) (phyLayerOverhead m)
        (redundancy m) (epsilon m) (cpuClockDrift m) (radioDataRate m)
        (radioDelayForValidCS m) (dataTXtime m) (lastWakeupTime m) (simTime m)
        (fes m) (nextId m) (outbox m) (ev m).

Definition set_dutyCycleWakeupMsg (v : option nat) (m : Mac) : Mac :=
  mkMac (sleepInterval m) (listenInterval m) (randomTxOffset m) (maxMacFrameSize m)
        (macBufferSize m) (macFrameOverhead m) (schedTXBuffer m) (dutyCycleSleepMsg m)
        v (selfExitCSMsg m) (doTx m) (self m) (macState m)
        (headTxBuffer m) (tailTxBuffer m) (disabled m) (phyLayerOverhead m)
        (redundancy m) (epsilon m) (cpuClockDrift m) (radioDataRate m)
        (radioDelayForValidCS m) (dataTXtime m) (lastWakeupTime m) (simTime m)
        (fes m) (nextId m) (outbox m) (ev m).

Definition set_selfExitCSMsg (v : option nat) (m : Mac) : Mac :=
  mkMac (sleepInterval m) (listenInterval m) (randomTxOffset m) (maxMacFrameSize m)
        (macBufferSize m) (macFrameOverhead m) (schedTXBuffer m) (dutyCycleSleepMsg m)
        (dutyCycleWakeupMsg m) v (doTx m) (self m) (macState m)
        (headTxBuffer m) (tailTxBuffer m) (disabled m) (phyLayerOverhead m)
        (redundancy m) (epsilon m) (cpuClockDrift m) (radioDataRate m)
        (radioDelayForValidCS m) (dataTXtime m) (lastWakeupTime m) (simTime m)
        (fes m) (nextId m) (outbox m) (ev m).

Definition set_doTx (v : bool) (m : Mac) : Mac :=
  mkMac (sleepInterval m) (listenInterval m) (randomTxOffset m) (maxMacFrameSize m)
        (macBufferSize m) (macFrameOverhead m) (schedTXBuffer m) (dutyCycleSleepMsg m)
        (dutyCycleWakeupMsg m) (selfExitCSMsg m) v (self m) (macState m)
        (headTxBuffer m) (tailTxBuffer m) (disabled m) (phyLayerOverhead m)
        (redundancy m) (epsilon m) (cpuClockDrift m) (radioDataRate m)
        (radioDelayForValidCS m) (dataTXtime m) (lastWakeupTime m) (simTime m)
        (fes m) (nextId m) (outbox m) (ev m).

Definition set_macState (v : MacStates) (m : Mac) : Mac :=
  mkMac (sleepInterval m) (listenInterval m) (randomTxOffset m) (maxMacFrameSize m)
        (macBufferSize m) (macFrameOverhead m) (schedTXBuffer m) (dutyCycleSleepMsg m)
        (dutyCycleWakeupMsg m) (selfExitCSMsg m) (doTx m) (self m) v
        (headTxBuffer m) (tailTxBuffer m) (disabled m) (phyLayerOverhead m)
        (redundancy m) (epsilon m) (cpuClockDrift m) (radioDataRate m)
        (radioDelayForValidCS m) (dataTXtime m) (lastWakeupTime m) (simTime m)
        (fes m) (nextId m) (outbox m) (ev m).

Definition set_headTxBuffer (v : Z) (m : Mac) : Mac :=
  mkMac (sleepInterval m) (listenInterval m) (randomTxOffset m) (maxMacFrameSize m)
        (macBufferSize m) (macFrameOverhead m) (schedTXBuffer m) (dutyCycleSleepMsg m)
        (dutyCycleWakeupMsg m) (selfExitCSMsg m) (doTx m) (self m) (macState m)
        v (tailTxBuffer m) (disabled m) (phyLayerOverhead m)
        (redundancy m) (epsilon m) (cpuClockDrift m) (radioDataRate m)
        (radioDelayForValidCS m) (dataTXtime m) (lastWakeupTime m) (simTime m)
        (fes m) (nextId m) (outbox m) (ev m).

Definition set_tailTxBuffer (v : Z) (m : Mac) : Mac :=
  mkMac (sleepInterval m) (listenInterval m) (randomTxOffset m) (maxMacFrameSize m)
        (macBufferSize m) (macFrameOverhead m) (schedTXBuffer m) (dutyCycleSleepMsg m)
        (dutyCycleWakeupMsg m) (selfExitCSMsg m) (doTx m) (self m) (macState m)
        (headTxBuffer m) v (disabled m) (phyLayerOverhead m)
        (redundancy m) (epsilon m) (cpuClockDrift m) (radioDataRate m)
        (radioDelayForValidCS m) (dataTXtime m) (lastWakeupTime m) (simTime m)
        (fes m) (nextId m) (outbox m) (ev m).

Definition set_disabled (v : bool) (m : Mac) : Mac :=
  mkMac (sleepInterval m) (listenInterval m) (randomTxOffset m) (maxMacFrameSize m)
        (macBufferSize m) (macFrameOverhead m) (schedTXBuffer m) (dutyCycleSleepMsg m)
        (dutyCycleWakeupMsg m) (selfExitCSMsg m) (doTx m) (self m) (macState m)
        (headTxBuffer m) (tailTxBuffer m) v (phyLayerOverhead m)
        (redundancy m) (epsilon m) (cpuClockDrift m) (radioDataRate m)
        (radioDelayForValidCS m) (dataTXtime m) (lastWakeupTime m) (simTime m)
        (fes m) (nextId m) (outbox m) (ev m).

Definition set_redundancy (v : Z) (m : Mac) : Mac :=
  mkMac (sleepInterval m) (listenInterval m) (randomTxOffset m) (maxMacFrameSize m)
        (macBufferSize m) (macFrameOverhead m) (schedTXBuffer m) (dutyCycleSleepMsg m)
        (dutyCycleWakeupMsg m) (selfExitCSMsg m) (doTx m) (self m) (macState m)
        (headTxBuffer m) (tailTxBuffer m) (disabled m) (phyLayerOverhead m)
        v (epsilon m) (cpuClockDrift m) (radioDataRate m)
        (radioDelayForValidCS m) (dataTXtime m) (lastWakeupTime m) (simTime m)
        (fes m) (nextId m) (outbox m) (ev m).

Definition set_dataTXtime (v : double) (m : Mac) : Mac :=
  mkMac (sleepInterval m) (listenInterval m) (randomTxOffset m) (maxMacFrameSize m)
        (macBufferSize m) (macFrameOverhead m) (schedTXBuffer m) (dutyCycleSleepMsg m)
        (dutyCycleWakeupMsg m) (selfExitCSMsg m) (doTx m) (self m) (macState m)
        (headTxBuffer m) (tailTxBuffer m) (disabled m) (phyLayerOverhead m)
        (redundancy m) (epsilon m) (cpuClockDrift m) (radioDataRate m)
        (radioDelayForValidCS m) v (lastWakeupTime m) (simTime m)
        (fes m) (nextId m) (outbox m) (ev m).

Definition set_lastWakeupTime (v : double) (m : Mac) : Mac :=
  mkMac (sleepInterval m) (listenInterval m) (randomTxOffset m) (maxMacFrameSize m)
        (macBufferSize m) (macFrameOverhead m) (schedTXBuffer m) (dutyCycleSleepMsg m)
        (dutyCycleWakeupMsg m) (selfExitCSMsg m) (doTx m) (self m) (macState m)
        (headTxBuffer m) (tailTxBuffer m) (disabled m) (phyLayerOverhead m)
        (redundancy m) (epsilon m) (cpuClockDrift m) (radioDataRate m)
        (radioDelayForValidCS m) (dataTXtime m) v (simTime m)
        (fes m) (nextId m) (outbox m) (ev m).

Definition set_simTime (v : double) (m : Mac) : Mac :=
  mkMac (sleepInterval m) (listenInterval m) (randomTxOffset m) (maxMacFrameSize m)
        (macBufferSize m) (macFrameOverhead m) (schedTXBuffer m) (dutyCycleSleepMsg m)
        (dutyCycleWakeupMsg m) (selfExitCSMsg m) (doTx m) (self m) (macState m)
        (headTxBuffer m) (tailTxBuffer m) (disabled m) (phyLayerOverhead m)
        (redundancy m) (epsilon m) (cpuClockDrift m) (radioDataRate m)
        (radioDelayForValidCS m) (dataTXtime m) (lastWakeupTime m) v
        (fes m) (nextId m) (outbox m) (ev m).

Definition set_fes (v : list Scheduled) (m : Mac) : Mac :=
  mkMac (sleepInterval m) (listenInterval m) (randomTxOffset m) (maxMacFrameSize m)
        (macBufferSize m) (macFrameOverhead m) (schedTXBuffer m) (dutyCycleSleepMsg m)
        (dutyCycleWakeupMsg m) (selfExitCSMsg m) (doTx m) (self m) (macState m)
        (headTxBuffer m) (tailTxBuffer m) (disabled m) (phyLayerOverhead m)
        (redundancy m) (epsilon m) (cpuClockDrift m) (radioDataRate m)
        (radioDelayForValidCS m) (dataTXtime m) (lastWakeupTime m) (simTime m)
        v (nextId m) (outbox m) (ev m).

Definition set_nextId (v : nat) (m : Mac) : Mac :=
  mkMac (sleepInterval m) (listenInterval m) (randomTxOffset m) (maxMacFrameSize m)
        (macBufferSize m) (macFrameOverhead m) (schedTXBuffer m) (dutyCycleSleepMsg m)
        (dutyCycleWakeupMsg m) (selfExitCSMsg m) (doTx m) (self m) (macState m)
        (headTxBuffer m) (tailTxBuffer m) (disabled m) (phyLayerOverhead m)
        (redundancy m) (epsilon m) (cpuClockDrift m) (radioDataRate m)
        (radioDelayForValidCS m) (dataTXtime m) (lastWakeupTime m) (simTime m)
        (fes m) v (outbox m) (ev m).

Definition set_outbox (v : list Sent) (m : Mac) : Mac :=
  mkMac (sleepInterval m) (listenInterval m) (randomTxOffset m) (maxMacFrameSize m)
        (macBufferSize m) (macFrameOverhead m) (schedTXBuffer m) (dutyCycleSleepMsg m)
        (dutyCycleWakeupMsg m) (selfExitCSMsg m) (doTx m) (self m) (macState m)
        (headTxBuffer m) (tailTxBuffer m) (disabled m) (phyLayerOverhead m)
        (redundancy m) (epsilon m) (cpuClockDrift m) (radioDataRate m)
        (radioDelayForValidCS m) (dataTXtime m) (lastWakeupTime m) (simTime m)
        (fes m) (nextId m) v (ev m).

Definition set_ev (v : list string) (m : Mac) : Mac :=
  mkMac (sleepInterval m) (listenInterval m) (randomTxOffset m) (maxMacFrameSize m)
        (macBufferSize m) (macFrameOverhead m) (schedTXBuffer m) (dutyCycleSleepMsg m)
        (dutyCycleWakeupMsg m) (selfExitCSMsg m) (doTx m) (self m) (macState m)
        (headTxBuffer m) (tailTxBuffer m) (disabled m) (phyLayerOverhead m)
        (redundancy m) (epsilon m) (cpuClockDrift m) (radioDataRate m)
        (radioDelayForValidCS m) (dataTXtime m) (lastWakeupTime m) (simTime m)
        (fes m) (nextId m) (outbox m) v.

(** ** The kernel services the module uses *)

(** [new cMessage] followed by [scheduleAt(t, msg)]: the message gets the next
    free identifier and is appended to the future-event set.  Events with
    equal arrival times are delivered in insertion order. *)
Definition scheduleAt (t : double) (msg : cMessage) (m : Mac) : nat * Mac :=
  (nextId m,
   set_nextId (S (nextId m))
     (set_fes (fes m ++ [mkScheduled (nextId m) t msg]) m)).

(** [p->isScheduled()] *)
Definition isScheduled (p : nat) (m : Mac) : bool :=
  existsb (fun e => Nat.eqb (sid e) p) (fes m).

(** [cancelAndDelete(p)] *)
Definition cancelAndDelete (p : nat) (m : Mac) : Mac :=
  set_fes (filter (fun e => sid e <> p) (fes m)) m.

(** [(p != NULL) && (p->isScheduled())] *)
Definition pending (p : option nat) (m : Mac) : bool :=
  match p with
  | None => false
  | Some i => isScheduled i m
  end.

(** [sendDelayed(msg, delay, gate)] and [send(msg, gate)]. *)
Definition sendDelayed (msg : cMessage) (d : double) (g : Gate) (m : Mac) : Mac :=
  set_outbox (outbox m ++ [mkSent g d msg]) m.

Definition send (msg : cMessage) (g : Gate) (m : Mac) : Mac :=
  sendDelayed msg d_0 g m.

(** [ev << text] *)
Definition ev_print (text : string) (m : Mac) : Mac :=
  set_ev (ev m ++ [text]) m.

(** ** Macros of the header *)

Definition MAC_BUFFER_ARRAY_SIZE (m : Mac) : Z := macBufferSize m + 1.

Definition BUFFER_IS_EMPTY (m : Mac) : bool :=
  headTxBuffer m =? tailTxBuffer m.

Definition CARRIER_SENSE_INTERVAL : double := dlit 1 10000.

Definition DRIFTED_TIME (time : double) (m : Mac) : double :=
  (time * cpuClockDrift m)%D.

(** ** The transmit queue *)

(** [schedTXBuffer[i]]; [None] when [i] is outside the array, where the
    source reads whatever lies next to it. *)
Definition slot (i : Z) (m : Mac) : option (option MAC_GenericFrame) :=
  if i <? 0 then None else schedTXBuffer m !! Z.to_nat i.

(** [schedTXBuffer[i] = f]; nothing is stored when [i] is outside the
    array, where the source writes next to it. *)
Definition store (i : Z) (f : MAC_GenericFrame) (m : Mac) : Mac :=
  if i <? 0 then m
  else set_schedTXBuffer (<[Z.to_nat i := Some f]> (schedTXBuffer m)) m.

(** getTXBufferSize *)
Definition getTXBufferSize (m : Mac) : Z :=
  let size := tailTxBuffer m - headTxBuffer m in
  if size <? 0 then size + MAC_BUFFER_ARRAY_SIZE m else size.

Definition BUFFER_IS_FULL (m : Mac) : bool :=
  getTXBufferSize m >=? macBufferSize m.

Definition pop_empty_text : string := "Trying to pop  EMPTY TxBuffer!!".

(** popTxBuffer.  The result is [None] where the source reads a slot that
    holds no frame and dereferences it; otherwise the returned pointer
    ([None] for [NULL]) and the new state.  A slot whose frame was popped
    before still holds that frame: the source leaves the pointer in place. *)
Definition popTxBuffer (m : Mac) : option (option MAC_GenericFrame * Mac) :=
  if tailTxBuffer m =? headTxBuffer m then
    let m1 := ev_print pop_empty_text m in
    let m2 := set_tailTxBuffer (tailTxBuffer m1 - 1) m1 in
    Some (None, m2)
  else
    match slot (headTxBuffer m) m with
    | Some (Some dataFrame) =>
        let m1 :=
          set_dataTXtime
            (int_to_double (byteLength dataFrame + phyLayerOverhead m)
               * d_8 / (d_1000 * radioDataRate m))%D m in
        let m2 :=
          set_redundancy
            (double_to_int (sleepInterval m1 / dataTXtime m1 + d_half)%D) m1 in
        let m3 :=
          set_headTxBuffer
            (Z.rem (headTxBuffer m2 + 1) (MAC_BUFFER_ARRAY_SIZE m2)) m2 in
        Some (Some dataFrame, m3)
    | _ => None
    end.

(** pushBuffer: the returned [int] is [1] when the frame was stored. *)
Definition pushBuffer (theFrame : option MAC_GenericFrame) (m : Mac) : Z * Mac :=
  match theFrame with
  | None => (0, m)
  | Some f =>
      let m1 :=
        set_tailTxBuffer
          (Z.rem (tailTxBuffer m + 1) (MAC_BUFFER_ARRAY_SIZE m)) m in
      if tailTxBuffer m1 =? headTxBuffer m1 then
        let m2 :=
          if tailTxBuffer m1 =? 0
          then set_tailTxBuffer (MAC_BUFFER_ARRAY_SIZE m1 - 1) m1
          else set_tailTxBuffer (tailTxBuffer m1 - 1) m1 in
        (0, m2)
      else
        let m2 :=
          if tailTxBuffer m1 =? 0
          then store (MAC_BUFFER_ARRAY_SIZE m1 - 1) f m1
          else store (tailTxBuffer m1 - 1) f m1 in
        (1, m2)
  end.

(** pushFrameIntoBuffer *)
Definition pushFrameIntoBuffer (msg : cMessage) (m : Mac) : option Mac :=
  if negb (BUFFER_IS_FULL m) then
    match payload msg with
    | MacPayload dataFrame => Some (snd (pushBuffer (Some dataFrame) m))
    | _ => None
    end
  else
    Some (send (MAC_ControlMessage MAC_2_NETWORK_FULL_BUFFER) toNetworkModule m).

(** ** The frame codec *)

(** Modelled from the spec: the reserved broadcast destination.  The header
    that defines [BROADCAST_ADDR] is not among the sources; Castalia gives it
    the value -1.  No statement below depends on the value. *)
Definition BROADCAST_ADDR : Z := -1.

Definition is_space (c : ascii) : bool :=
  let n := nat_of_ascii c in
  (Nat.eqb n 32 || (Nat.leb 9 n && Nat.leb n 13))%bool.

Definition digit_of (c : ascii) : option Z :=
  let n := nat_of_ascii c in
  if (Nat.leb 48 n && Nat.leb n 57)%bool then Some (Z.of_nat (n - 48)) else None.

Fixpoint atoi_digits (acc : Z) (s : string) : Z :=
  match s with
  | EmptyString => acc
  | String c s' =>
      match digit_of c with
      | Some d => atoi_digits (10 * acc + d) s'
      | None => acc
      end
  end.

Fixpoint atoi (s : string) : Z :=
  match s with
  | EmptyString => 0
  | String c s' =>
      if is_space c then atoi s'
      else if Ascii.eqb c "-"%char then - atoi_digits 0 s'
      else if Ascii.eqb c "+"%char then atoi_digits 0 s'
      else atoi_digits 0 s
  end.

(** resolvDestination *)
Definition resolvDestination (routingDestination : string) : Z :=
  if String.eqb routingDestination (pretty.pretty BROADCAST_ADDR)
  then BROADCAST_ADDR
  else atoi routingDestination.

(** encapsulateNetworkFrame: [None] is the return value 0 (no frame built). *)
Definition encapsulateNetworkFrame (networkFrame : Network_GenericFrame) (m : Mac)
  : option MAC_GenericFrame :=
  let totalMsgLen := netByteLength networkFrame + macFrameOverhead m in
  if totalMsgLen >? maxMacFrameSize m then None
  else Some (mkMacFrame (self m)
                        (resolvDestination (destCtrl networkFrame))
                        (macFrameOverhead m + netByteLength networkFrame)
                        (Some networkFrame)).

(** ** The radio strobe *)

(** setRadioState.  Every call site passes one of the three commands; for
    any other kind the source raises [opp_error] and nothing is sent. *)
Definition setRadioState (typeID : MsgKind) (d : double) (m : Mac) : Mac :=
  match typeID with
  | MAC_2_RADIO_ENTER_SLEEP | MAC_2_RADIO_ENTER_LISTEN | MAC_2_RADIO_ENTER_TX =>
      sendDelayed (MAC_ControlMessage typeID) d toRadioModule m
  | _ => m
  end.

(** ** Carrier sense *)

(** [cancelAndDelete(p)] for a pointer that is not [NULL]. *)
Definition cancelAndDelete_ptr (p : option nat) (m : Mac) : Mac :=
  match p with
  | Some i => cancelAndDelete i m
  | None => m
  end.

(** [if ((p != NULL) && (p->isScheduled())) cancelAndDelete(p);] *)
Definition cancel_if_pending (p : option nat) (m : Mac) : Mac :=
  if pending p m then cancelAndDelete_ptr p m else m.

(** initiateCarrierSense *)
Definition initiateCarrierSense (m : Mac) : Mac :=
  match macState m with
  | MAC_STATE_DEFAULT | MAC_STATE_TRY_TX =>
      if ((doTx m && negb (BUFFER_IS_EMPTY m)) || negb (doTx m))%bool then
        snd (scheduleAt (simTime m)
               (MAC_ControlMessage MAC_SELF_PERFORM_CARRIER_SENSE) m)
      else if (doTx m && BUFFER_IS_EMPTY m)%bool then
        let m1 := set_macState MAC_STATE_DEFAULT m in
        snd (scheduleAt (simTime m1 + DRIFTED_TIME (listenInterval m1) m1)%D
               (MAC_ControlMessage MAC_SELF_SET_RADIO_SLEEP) m1)
      else m
  | _ => m
  end.

(** performCarrierSense.  The strobe to the radio carries
    [CARRIER_SENSE_INTERVAL]. *)
Definition performCarrierSense (env : Env) (m : Mac) : Mac :=
  match macState m with
  | MAC_STATE_DEFAULT | MAC_STATE_TRY_TX =>
      match isCarrierSenseValid env with
      | CS_VALID =>
          let m1 := send (MAC_ControlMessage MAC_2_RADIO_SENSE_CARRIER)
                         toRadioModule m in
          let '(p, m2) :=
            scheduleAt (simTime m1 + CARRIER_SENSE_INTERVAL + epsilon m1)%D
              (MAC_ControlMessage MAC_SELF_EXIT_CARRIER_SENSE) m1 in
          let m3 := set_selfExitCSMsg (Some p) m2 in
          set_macState MAC_STATE_CARRIER_SENSING m3
      | RADIO_IN_TX_MODE =>
          snd (scheduleAt (simTime m)
                 (MAC_ControlMessage MAC_SELF_CHECK_TX_BUFFER) m)
      | RADIO_SLEEPING =>
          let m1 := setRadioState MAC_2_RADIO_ENTER_LISTEN d_0 m in
          snd (scheduleAt
                 (simTime m1 + DRIFTED_TIME (radioDelayForValidCS m1) m1
                  + epsilon m1)%D
                 (MAC_ControlMessage MAC_SELF_PERFORM_CARRIER_SENSE) m1)
      | RADIO_NON_READY =>
          snd (scheduleAt
                 (simTime m + DRIFTED_TIME (radioDelayForValidCS m) m)%D
                 (MAC_ControlMessage MAC_SELF_PERFORM_CARRIER_SENSE) m)
      | CS_UNKNOWN_REASON => m
      end
  | _ => m
  end.

(** [(double) (2 * maxMacFrameSize * 8 / (1000.0 * radioDataRate))]: the
    product is computed on [int]s, then divided as a [double]. *)
Definition expectRxWindow (m : Mac) : double :=
  (int_to_double (int_wrap (int_wrap (2 * maxMacFrameSize m) * 8))
   / (d_1000 * radioDataRate m))%D.

(** The body both branches of carrierBusy share (the source is compiled with
    [BLOCKING] defined, so the frame-dropping variant is not part of it). *)
Definition expectRx (m : Mac) : Mac :=
  let m1 := cancel_if_pending (dutyCycleWakeupMsg m) m in
  let m2 := cancel_if_pending (dutyCycleSleepMsg m1) m1 in
  let m3 := set_macState MAC_STATE_EXPECTING_RX m2 in
  let '(p, m4) :=
    scheduleAt (simTime m3 + DRIFTED_TIME (expectRxWindow m3) m3)%D
      (MAC_ControlMessage MAC_SELF_SET_RADIO_SLEEP) m3 in
  set_dutyCycleSleepMsg (Some p) m4.

(** carrierBusy *)
Definition carrierBusy (m : Mac) : Mac :=
  let m1 :=
    if pending (selfExitCSMsg m) m
    then set_selfExitCSMsg None (cancelAndDelete_ptr (selfExitCSMsg m) m)
    else m in
  match macState m1 with
  | MAC_STATE_CARRIER_SENSING | MAC_STATE_DEFAULT =>
      if doTx m1 then expectRx m1 else expectRx m1
  | _ => m1
  end.

(** carrierFree *)
Definition carrierFree (m : Mac) : Mac :=
  let m' :=
    match macState m with
    | MAC_STATE_CARRIER_SENSING =>
        let m1 := set_macState MAC_STATE_DEFAULT m in
        if doTx m1 then
          let m2 :=
            if pending (dutyCycleWakeupMsg m1) m1
            then set_dutyCycleWakeupMsg None
                   (cancelAndDelete_ptr (dutyCycleWakeupMsg m1) m1)
            else m1 in
          let m3 :=
            if pending (dutyCycleSleepMsg m2) m2
            then set_dutyCycleSleepMsg None
                   (cancelAndDelete_ptr (dutyCycleSleepMsg m2) m2)
            else m2 in
          snd (scheduleAt (simTime m3)
                 (MAC_ControlMessage MAC_SELF_CHECK_TX_BUFFER) m3)
        else
          let timeLeftListening :=
            (listenInterval m1 - (simTime m1 - lastWakeupTime m1))%D in
          if dgt timeLeftListening
                 (radioDelayForValidCS m1 + CARRIER_SENSE_INTERVAL)%D
          then initiateCarrierSense m1
          else m1
    | _ => m
    end in
  set_selfExitCSMsg None m'.

(** ** The redundancy transmitter *)

(** One pass of the body of the [for] loop of sendData, for the index [i]. *)
Definition sendCopy (dataFrame : MAC_GenericFrame) (i : Z) (m : Mac) : Mac :=
  let m1 :=
    sendDelayed (mkMsg MAC_FRAME (MacPayload dataFrame))
      (DRIFTED_TIME (int_to_double i * dataTXtime m) m) toRadioModule m in
  setRadioState MAC_2_RADIO_ENTER_TX
    (DRIFTED_TIME (int_to_double i * dataTXtime m1) m1 + epsilon m1)%D m1.

(** [for (int i = start; i <= redundancy; i++)], with [n] passes left. *)
Fixpoint sendCopies (n : nat) (dataFrame : MAC_GenericFrame) (i : Z) (m : Mac)
  : Mac :=
  match n with
  | O => m
  | S n' => sendCopies n' dataFrame (i + 1) (sendCopy dataFrame i m)
  end.

(** sendData.  [None] where the popped pointer cannot be dereferenced, and
    where [redundancy] is [INT_MAX]: the condition [i <= redundancy] then
    holds for every [int], and [i++] overflows. *)
Definition sendData (m : Mac) : option Mac :=
  if negb (BUFFER_IS_EMPTY m) then
    match macState m with
    | MAC_STATE_TX | MAC_STATE_DEFAULT =>
        match popTxBuffer m with
        | Some (Some dataFrame, m1) =>
            if redundancy m1 =? INT_MAX then None
            else Some (sendCopies (Z.to_nat (redundancy m1 + 1)) dataFrame 0 m1)
        | _ => None
        end
    | _ =>
        let m1 := set_macState MAC_STATE_DEFAULT m in
        Some (setRadioState MAC_2_RADIO_ENTER_SLEEP d_0 m1)
    end
  else Some m.

(** finishDataTransmission *)
Definition finishDataTransmission (m : Mac) : Mac :=
  let m1 :=
    match macState m with
    | MAC_STATE_TX =>
        let m1 := set_macState MAC_STATE_DEFAULT m in
        if negb (BUFFER_IS_EMPTY m1) then
          snd (scheduleAt
                 (simTime m1 + DRIFTED_TIME (dataTXtime m1 + epsilon m1) m1)%D
                 (MAC_ControlMessage MAC_SELF_INITIATE_TX) m1)
        else set_doTx false m1
    | _ => m
    end in
  let m2 := setRadioState MAC_2_RADIO_ENTER_SLEEP d_0 m1 in
  let '(p, m3) :=
    scheduleAt (simTime m2 + sleepInterval m2)%D
      (MAC_ControlMessage MAC_SELF_WAKEUP_RADIO) m2 in
  set_dutyCycleWakeupMsg (Some p) m3.

(** ** The duty cycle *)

Definition SLEEP : Z := 0.
Definition WAKEUP : Z := 1.

(** dutyCycle *)
Definition dutyCycle (typeID : Z) (m : Mac) : Mac :=
  if typeID =? SLEEP then
    let m1 :=
      match macState m with
      | MAC_STATE_EXPECTING_RX => set_macState MAC_STATE_DEFAULT m
      | _ => m
      end in
    let m2 :=
      match macState m1 with
      | MAC_STATE_DEFAULT =>
          let a := setRadioState MAC_2_RADIO_ENTER_SLEEP d_0 m1 in
          let b := cancel_if_pending (dutyCycleWakeupMsg a) a in
          let '(p, c) :=
            scheduleAt (simTime b + DRIFTED_TIME (sleepInterval b) b)%D
              (MAC_ControlMessage MAC_SELF_WAKEUP_RADIO) b in
          set_dutyCycleWakeupMsg (Some p) c
      | _ => m1
      end in
    set_dutyCycleSleepMsg None m2
  else if typeID =? WAKEUP then
    let m1 :=
      match macState m with
      | MAC_STATE_DEFAULT =>
          let a := setRadioState MAC_2_RADIO_ENTER_LISTEN d_0 m in
          let b := set_lastWakeupTime (simTime a) a in
          let c := cancel_if_pending (dutyCycleSleepMsg b) b in
          let '(p, d) :=
            scheduleAt (simTime c + DRIFTED_TIME (listenInterval c) c)%D
              (MAC_ControlMessage MAC_SELF_SET_RADIO_SLEEP) c in
          initiateCarrierSense (set_dutyCycleSleepMsg (Some p) d)
      | _ => m
      end in
    set_dutyCycleWakeupMsg None m1
  else m.

(** ** Payloads from the network layer *)

(** handleNetworkLayerFrame.  [None] where [check_and_cast] fails. *)
Definition handleNetworkLayerFrame (msg : cMessage) (env : Env) (m : Mac)
  : option Mac :=
  if negb (BUFFER_IS_FULL m) then
    match payload msg with
    | NetPayload rcvNetDataFrame =>
        match encapsulateNetworkFrame rcvNetDataFrame m with
        | Some dataFrame =>
            let m1 := set_doTx true m in
            let m2 :=
              snd (scheduleAt (simTime m1)
                     (mkMsg MAC_FRAME_SELF_PUSH_TX_BUFFER (MacPayload dataFrame))
                     m1) in
            Some (snd (scheduleAt
                         (simTime m2
                          + DRIFTED_TIME (dblrand env * randomTxOffset m2) m2)%D
                         (MAC_ControlMessage MAC_SELF_INITIATE_TX) m2))
        | None => Some m
        end
    | _ => None
    end
  else Some m.

(** ** The dispatcher *)

(** The [MAC_FRAME] case of handleMessage. *)
Definition receiveFrame (msg : cMessage) (m : Mac) : option Mac :=
  match payload msg with
  | MacPayload rcvFrame =>
      let m1 := set_macState MAC_STATE_DEFAULT m in
      let m2 := cancel_if_pending (dutyCycleWakeupMsg m1) m1 in
      let m3 := cancel_if_pending (dutyCycleSleepMsg m2) m2 in
      let '(p, m4) :=
        scheduleAt (simTime m3)
          (MAC_ControlMessage MAC_SELF_SET_RADIO_SLEEP) m3 in
      let m5 := set_dutyCycleSleepMsg (Some p) m4 in
      match encapsulated rcvFrame with
      | Some netDataFrame =>
          Some (send (mkMsg NET_FRAME (NetPayload netDataFrame))
                     toNetworkModule m5)
      | None => None
      end
  | _ => None
  end.

(** The [MAC_SELF_INITIATE_TX] case of handleMessage. *)
Definition initiateTx (env : Env) (m : Mac) : Mac :=
  match macState m with
  | MAC_STATE_DEFAULT =>
      let m1 := set_macState MAC_STATE_TRY_TX m in
      let m2 :=
        if pending (dutyCycleWakeupMsg m1) m1
        then set_dutyCycleWakeupMsg None
               (cancelAndDelete_ptr (dutyCycleWakeupMsg m1) m1)
        else m1 in
      let m3 :=
        if pending (dutyCycleSleepMsg m2) m2
        then set_dutyCycleSleepMsg None
               (cancelAndDelete_ptr (dutyCycleSleepMsg m2) m2)
        else m2 in
      let m4 :=
        setRadioState MAC_2_RADIO_ENTER_LISTEN (d_milli * dblrand env)%D m3 in
      initiateCarrierSense m4
  | _ => m
  end.

(** The [RADIO_2_MAC_STARTED_TX] case of handleMessage. *)
Definition startedTx (m : Mac) : Mac :=
  match macState m with
  | MAC_STATE_CARRIER_SENSING =>
      let m1 := set_macState MAC_STATE_DEFAULT m in
      snd (scheduleAt (simTime m1)
             (MAC_ControlMessage MAC_SELF_CHECK_TX_BUFFER) m1)
  | MAC_STATE_DEFAULT => set_macState MAC_STATE_TX m
  | _ => m
  end.

(** handleMessage.  [env] gives what the handler reads from the random
    generator and from the radio while it runs. *)
Definition handleMessage (msg : cMessage) (env : Env) (m : Mac) : option Mac :=
  if (disabled m && negb (bool_decide (kind msg = APP_NODE_STARTUP)))%bool
  then Some m
  else
    match kind msg with
    | APP_NODE_STARTUP =>
        let m1 := set_disabled false m in
        let '(p, m2) :=
          scheduleAt (simTime m1)
            (MAC_ControlMessage MAC_SELF_WAKEUP_RADIO) m1 in
        Some (set_dutyCycleWakeupMsg (Some p) m2)
    | MAC_SELF_SET_RADIO_SLEEP => Some (dutyCycle SLEEP m)
    | MAC_SELF_WAKEUP_RADIO => Some (dutyCycle WAKEUP m)
    | NET_FRAME => handleNetworkLayerFrame msg env m
    | MAC_FRAME_SELF_PUSH_TX_BUFFER => pushFrameIntoBuffer msg m
    | MAC_SELF_INITIATE_TX => Some (initiateTx env m)
    | MAC_SELF_PERFORM_CARRIER_SENSE => Some (performCarrierSense env m)
    | RADIO_2_MAC_SENSED_CARRIER => Some (carrierBusy m)
    | MAC_SELF_EXIT_CARRIER_SENSE => Some (carrierFree m)
    | MAC_SELF_CHECK_TX_BUFFER => sendData m
    | RADIO_2_MAC_STARTED_TX => Some (startedTx m)
    | RADIO_2_MAC_STOPPED_TX => Some (finishDataTransmission m)
    | MAC_FRAME => receiveFrame msg m
    | RESOURCE_MGR_OUT_OF_ENERGY => Some (set_disabled true m)
    | _ => Some m
    end.

(** initialize.  The arguments are what readIniFileParameters, the radio
    module and the resource manager supply.  [epsilon] is the [float]
    literal [0.000001f]; the members the function leaves unassigned
    ([selfExitCSMsg], [redundancy], [dataTXtime], [lastWakeupTime]) start at
    [NULL] and 0, and the slots of the fresh array hold no frame. *)
Definition initialize
  (sleepI listenI rndOffset : double) (maxFrame bufSize overhead : Z)
  (selfId : Z) (dataRate delayCSValid : double) (phyFrameOverhead : Z)
  (clockDrift : double) : Mac :=
  let m :=
    mkMac sleepI listenI rndOffset maxFrame bufSize overhead
          (replicate (Z.to_nat (bufSize + 1)) None)
          None None None false selfId MAC_STATE_DEFAULT 0 0 true
          phyFrameOverhead 0 (flit 1 1000000) clockDrift dataRate
          (delayCSValid / d_1000)%D d_0 d_0 d_0 [] O [] [] in
  setRadioState MAC_2_RADIO_ENTER_SLEEP d_0 m.

(** ** The simulation kernel around the module *)

(** What happens next: the kernel delivers a pending self-message, or a
    message from the radio, the network layer or the resource manager
    arrives at time [t]. *)
Inductive Event : Type :=
| Fire (id : nat)
| Arrive (t : double) (msg : cMessage).

(** The self-message the kernel delivers next: the earliest arrival, and
    among equal arrival times the one scheduled first. *)
Fixpoint next_self (l : list Scheduled) : option Scheduled :=
  match l with
  | [] => None
  | e :: l' =>
      match next_self l' with
      | Some e' => if dle (arrival e) (arrival e') then Some e else Some e'
      | None => Some e
      end
  end.

Definition no_earlier (t : double) (l : list Scheduled) : bool :=
  forallb (fun e => dle t (arrival e)) l.

(** One event.  [None] when the event cannot happen in this state (the
    self-message is not the next one, or time would run backwards) or when
    the handler fails. *)
Definition deliver (e : Event) (env : Env) (m : Mac) : option Mac :=
  match e with
  | Fire id =>
      match next_self (fes m) with
      | Some s =>
          if (Nat.eqb (sid s) id && dle (simTime m) (arrival s))%bool
          then handleMessage (smsg s) env
                 (set_simTime (arrival s) (cancelAndDelete id m))
          else None
      | None => None
      end
  | Arrive t msg =>
      if (dle (simTime m) t && no_earlier t (fes m))%bool
      then handleMessage msg env (set_simTime t m)
      else None
  end.

Fixpoint run (trace : list (Event * Env)) (m : Mac) : option Mac :=
  match trace with
  | [] => Some m
  | (e, env) :: trace' =>
      match deliver e env m with
      | Some m' => run trace' m'
      | None => None
      end
  end.

(** The number of pending self-messages of kind [k]. *)
Definition armed (k : MsgKind) (m : Mac) : nat :=
  length (filter (fun s => kind (smsg s) = k) (fes m)).

(** The arrival times of the pending self-messages of kind [k]. *)
Definition armed_at (k : MsgKind) (m : Mac) : list double :=
  arrival <$> filter (fun s => kind (smsg s) = k) (fes m).

(** ** Sequences of queue operations *)

Inductive QueueOp : Type :=
| Push (f : MAC_GenericFrame)
| Pop.

(** Runs the operations in order; the result lists what each pop returned. *)
Fixpoint runQueue (ops : list QueueOp) (m : Mac)
  : option (list (option MAC_GenericFrame) * Mac) :=
  match ops with
  | [] => Some ([], m)
  | Push f :: ops' => runQueue ops' (snd (pushBuffer (Some f) m))
  | Pop :: ops' =>
      match popTxBuffer m with
      | Some (r, m1) =>
          match runQueue ops' m1 with
          | Some (rs, m2) => Some (r :: rs, m2)
          | None => None
          end
      | None => None
      end
  end.

(** Pushes the frames one after the other; the result lists the value each
    call of pushBuffer returned. *)
Fixpoint pushAll (fs : list MAC_GenericFrame) (m : Mac) : list Z * Mac :=
  match fs with
  | [] => ([], m)
  | f :: fs' =>
      let '(r, m1) := pushBuffer (Some f) m in
      let '(rs, m2) := pushAll fs' m1 in
      (r :: rs, m2)
  end.

(** ** The queue as the module drives it *)

(** What one queue operation answered: the [int] pushBuffer returned, the
    pointer popTxBuffer returned, or nothing because popTxBuffer was not
    called. *)
Inductive QueueResult : Type :=
| Pushed (r : Z)
| Popped (f : option MAC_GenericFrame)
| NotCalled.

(** The pop as its call sites issue it: sendData and finish test
    [BUFFER_IS_EMPTY] and call popTxBuffer only when it is false.  (The
    third call, in carrierBusy, is compiled out by [BLOCKING].) *)
Definition popIfNotEmpty (m : Mac) : option (QueueResult * Mac) :=
  if negb (BUFFER_IS_EMPTY m) then
    match popTxBuffer m with
    | Some (r, m1) => Some (Popped r, m1)
    | None => None
    end
  else Some (NotCalled, m).

(** Runs the operations in order, the pops as the module issues them. *)
Fixpoint runCalls (ops : list QueueOp) (m : Mac)
  : option (list QueueResult * Mac) :=
  match ops with
  | [] => Some ([], m)
  | Push f :: ops' =>
      let '(r, m1) := pushBuffer (Some f) m in
      match runCalls ops' m1 with
      | Some (rs, m2) => Some (Pushed r :: rs, m2)
      | None => None
      end
  | Pop :: ops' =>
      match popIfNotEmpty m with
      | Some (r, m1) =>
          match runCalls ops' m1 with
          | Some (rs, m2) => Some (r :: rs, m2)
          | None => None
          end
      | None => None
      end
  end.

(** The frames the pops handed out, in order. *)
Fixpoint poppedFrames (rs : list QueueResult) : list MAC_GenericFrame :=
  match rs with
  | Popped (Some f) :: rs' => f :: poppedFrames rs'
  | _ :: rs' => poppedFrames rs'
  | [] => []
  end.

(** The frames whose push returned 1, in order. *)
Fixpoint acceptedFrames (ops : list QueueOp) (rs : list QueueResult)
  : list MAC_GenericFrame :=
  match ops, rs with
  | Push f :: ops', Pushed r :: rs' =>
      if r =? 1 then f :: acceptedFrames ops' rs' else acceptedFrames ops' rs'
  | _ :: ops', _ :: rs' => acceptedFrames ops' rs'
  | _, _ => []
  end.

(** The frames the operations try to push, in order. *)
Definition pushedFrames (ops : list QueueOp) : list MAC_GenericFrame :=
  omap (fun op => match op with Push f => Some f | Pop => None end) ops.

(** ** Vocabulary of the statements *)

(** The state a pop on an empty queue leaves behind, and that rejected
    pushes preserve: the tail sits one slot behind the head. *)
Definition tail_behind_head (m : Mac) : Prop :=
  tailTxBuffer m = headTxBuffer m - 1
  \/ (headTxBuffer m = 0 /\ tailTxBuffer m = macBufferSize m).

(** [r] is the integer nearest to [x], the upper one when [x] lies halfway
    between two integers. *)
Definition nearest_ties_up (x : Q) (r : Z) : Prop :=
  (inject_Z r - (1 # 2) <= x /\ x < inject_Z r + (1 # 2))%Q.

(** What one pass of the loop of sendData hands to the radio for the index
    [i]: the copy of the frame, and the transmit strobe [eps] later. *)
Definition copyMessages (f : MAC_GenericFrame) (t drift eps : double) (i : Z)
  : list Sent :=
  [ mkSent toRadioModule (int_to_double i * t * drift)%D
           (mkMsg MAC_FRAME (MacPayload f));
    mkSent toRadioModule (int_to_double i * t * drift + eps)%D
           (MAC_ControlMessage MAC_2_RADIO_ENTER_TX) ].

(** The frames among the messages handed to the radio, with their delays. *)
Definition frameCopies (l : list Sent) : list (MAC_GenericFrame * double) :=
  omap (fun s =>
          match gate s, kind (content s), payload (content s) with
          | toRadioModule, MAC_FRAME, MacPayload f => Some (f, delay s)
          | _, _, _ => None
          end) l.

(** The notifications among the messages handed to the network layer. *)
Definition bufferFullNotices (l : list Sent) : nat :=
  length (filter (fun s => gate s = toNetworkModule
                           /\ kind (content s) = MAC_2_NETWORK_FULL_BUFFER) l).

(** The future-event set without the message [p] points to. *)
Definition without (p : option nat) (l : list Scheduled) : list Scheduled :=
  match p with
  | Some i => filter (fun s => sid s <> i) l
  | None => l
  end.

(** The ring holds the frames [q], oldest first: [q] fits the capacity, the
    tail lies [length q] slots after the head, and the slots from the head
    on hold the frames of [q]. *)
Record ring_rep (m : Mac) (q : list MAC_GenericFrame) : Prop := mkRep {
  rep_N : 0 <= macBufferSize m;
  rep_len : length (schedTXBuffer m) = Z.to_nat (macBufferSize m + 1);
  rep_h : 0 <= headTxBuffer m <= macBufferSize m;
  rep_q : Z.of_nat (length q) <= macBufferSize m;
  rep_t : tailTxBuffer m
          = (headTxBuffer m + Z.of_nat (length q)) mod (macBufferSize m + 1);
  rep_slots :
    forall (k : nat) (f : MAC_GenericFrame),
      q !! k = Some f ->
      slot ((headTxBuffer m + Z.of_nat k) mod (macBufferSize m + 1)) m
      = Some (Some f)
}.

(** The indices never leave the array, whatever is pushed and popped:
    only the tail can step one slot below it. *)
Definition indices_ok (m : Mac) : Prop :=
  0 <= macBufferSize m
  /\ 0 <= headTxBuffer m <= macBufferSize m
  /\ -1 <= tailTxBuffer m <= macBufferSize m.

(** A queue of capacity [N] as the spec words it: a push onto a full queue
    drops the frame, a pop takes the oldest frame.  The result lists the
    frames the pops return; it is [None] when a pop meets an empty queue. *)
Fixpoint fifoRun (N : Z) (ops : list QueueOp) (q : list MAC_GenericFrame)
  : option (list MAC_GenericFrame) :=
  match ops with
  | [] => Some []
  | Push f :: ops' =>
      fifoRun N ops' (if Z.of_nat (length q) <? N then q ++ [f] else q)
  | Pop :: ops' =>
      match q with
      | [] => None
      | f :: q' => cons f <$> fifoRun N ops' q'
      end
  end.

(** ** Sample states and runs *)

(** A module as [initialize] leaves it: sleep interval 1 s, listen interval
    0.1 s, frames of at most 128 bytes, capacity 2, a 2 kbps radio with
    6 bytes of physical-layer overhead, no clock drift. *)
Definition sampleMac : Mac :=
  initialize (dlit 1 1) (dlit 1 10) (dlit 1 100) 128 2 10 7
             (dlit 2 1) (dlit 1 1) 6 (dlit 1 1).

(** The same module with a capacity of 1. *)
Definition capacityOne : Mac :=
  initialize (dlit 1 1) (dlit 1 10) (dlit 1 100) 128 1 10 7
             (dlit 2 1) (dlit 1 1) 6 (dlit 1 1).

(** The same module with a clock that runs 10 % slow. *)
Definition driftingMac : Mac :=
  initialize (dlit 1 1) (dlit 1 10) (dlit 1 100) 128 2 10 7
             (dlit 2 1) (dlit 1 1) 6 (dlit 11 10).

Definition frameA : MAC_GenericFrame := mkMacFrame 7 3 30 None.
Definition frameB : MAC_GenericFrame := mkMacFrame 7 4 40 None.

(** The queue of capacity 1 after frames A and B went through it: it is
    empty, head and tail meet at slot 0, and the two slots still hold A
    and B. *)
Definition drainedOne : Mac :=
  default capacityOne
    (snd <$> runQueue [Push frameA; Pop; Push frameB; Pop] capacityOne).

(** A payload of 59 bytes for node 3, and the frame of 69 bytes node 7
    builds from it; with the physical-layer overhead the frame is 600 bits
    long and takes 0.3 s on air. *)
Definition payload59 : Network_GenericFrame := mkNetFrame "3" 59 [].

Definition frame69 : MAC_GenericFrame := mkMacFrame 7 3 69 (Some payload59).

Definition oneSecondSleeper : Mac :=
  snd (pushBuffer (Some frame69) sampleMac).

(** A 250 kbps radio and a frame of 14 bytes, 20 bytes on air. *)
Definition fastRadio : Mac :=
  initialize (dlit 1 1) (dlit 1 10) (dlit 1 100) 128 2 10 7
             (dlit 250 1) (dlit 1 1) 6 (dlit 1 1).

Definition frame14 : MAC_GenericFrame := mkMacFrame 7 3 14 None.

(** The same radio with a sleep interval of 2000000 s. *)
Definition longSleeper : Mac :=
  initialize (dlit 2000000 1) (dlit 1 10) (dlit 1 100) 128 2 10 7
             (dlit 250 1) (dlit 1 1) 6 (dlit 1 1).

(** A 1 kbps radio, a sleep interval just below 0.5 s, and a frame of
    119 bytes, 125 bytes and 1 s on air. *)
Definition halfSleeper : Mac :=
  initialize below_half (dlit 1 10) (dlit 1 100) 128 2 10 7
             (dlit 1 1) (dlit 1 1) 6 (dlit 1 1).

Definition frame119 : MAC_GenericFrame := mkMacFrame 7 3 119 None.

Definition quiet : Env := mkEnv (dlit 1 2) CS_VALID.

Definition startup : cMessage := MAC_ControlMessage APP_NODE_STARTUP.
Definition netFrame : cMessage := mkMsg NET_FRAME (NetPayload payload59).

(** The node starts, wakes up and begins to sense the carrier; half-way
    through the sensing interval a payload arrives and is queued.  Pending
    afterwards: the sleep timer (1), the carrier-sense exit (3) and the
    transmit initiation (5). *)
Definition sensingWithPayload : list (Event * Env) :=
  [ (Arrive d_0 startup, quiet);
    (Fire 0, quiet);
    (Fire 2, quiet);
    (Arrive (dlit 1 20000) netFrame, quiet);
    (Fire 4, quiet) ].

(** The state a trace leads to from [m]; [m] itself if the trace cannot run. *)
Definition after (trace : list (Event * Env)) (m : Mac) : Mac :=
  default m (run trace m).

(** The sensing interval ends with the channel free, the frame is sent as a
    burst, and the radio reports the start of the transmission and its
    end. *)
Definition burstStopped : list (Event * Env) :=
  sensingWithPayload ++
  [ (Fire 3, quiet);
    (Fire 6, quiet);
    (Arrive (dlit 1 1000) (MAC_ControlMessage RADIO_2_MAC_STARTED_TX), quiet);
    (Fire 5, quiet);
    (Arrive (dlit 31 100) (MAC_ControlMessage RADIO_2_MAC_STOPPED_TX), quiet) ].

(** The radio reports the end of the transmission once more, after the
    last copy. *)
Definition burstStoppedTwice : list (Event * Env) :=
  burstStopped ++
  [ (Arrive (dlit 121 100) (MAC_ControlMessage RADIO_2_MAC_STOPPED_TX), quiet) ].

(** The application hands over its first payload at the instant the node
    starts: the payload is accepted before the first wake-up is delivered,
    the frame is pushed only after it. *)
Definition payloadAtStartup : list (Event * Env) :=
  [ (Arrive d_0 startup, quiet);
    (Arrive d_0 netFrame, quiet);
    (Fire 0, quiet) ].

(** Two payloads arrive and are queued on a node of capacity 2. *)
Definition twoQueued : list (Event * Env) :=
  [ (Arrive d_0 startup, quiet);
    (Fire 0, quiet);
    (Fire 2, quiet);
    (Arrive (dlit 1 100000) netFrame, quiet);
    (Fire 4, quiet);
    (Arrive (dlit 2 100000) netFrame, quiet);
    (Fire 6, quiet) ].

(** The node starts, wakes up and begins to sense the carrier. *)
Definition sensing : list (Event * Env) :=
  [ (Arrive d_0 startup, quiet);
    (Fire 0, quiet);
    (Fire 2, quiet) ].

Definition receivedFrame : cMessage := mkMsg MAC_FRAME (MacPayload frame69).

(** While the node senses the carrier a frame is received; the sleep that
    the reception schedules is delivered, and then the carrier-sense exit
    armed before the reception. *)
Definition receptionWhileSensing : list (Event * Env) :=
  sensing ++
  [ (Arrive (dlit 1 20000) receivedFrame, quiet);
    (Fire 4, quiet);
    (Fire 3, quiet) ].

(** * Properties *)

(** ** Binary64: how the operations round *)

Lemma iter_pos_nat {A : Type} (f : A -> A) (p : positive) (x : A) :
  SpecFloat.iter_pos f p x = Nat.iter (Pos.to_nat p) f x.
Proof.
  revert x. induction p as [p IH | p IH |]; intros x; cbn [SpecFloat.iter_pos].
  - rewrite !IH, Pos2Nat.inj_xI. rewrite <- Nat.iter_succ_r.
    rewrite <- Nat.iter_add. f_equal. lia.
  - rewrite !IH, Pos2Nat.inj_xO, <- Nat.iter_add. f_equal. lia.
  - reflexivity.
Qed.

Lemma digits2_pos_size (p : positive) : digits2_pos p = Pos.size p.
Proof. induction p; cbn; congruence. Qed.

Lemma digits2_bounds (p : positive) :
  2 ^ (Z.pos (digits2_pos p) - 1) <= Z.pos p < 2 ^ Z.pos (digits2_pos p).
Proof.
  rewrite digits2_pos_size. split.
  - pose proof (Pos.size_le p) as H.
    assert (H' : Z.pos (2 ^ Pos.size p) <= Z.pos p~0) by exact H.
    rewrite Pos2Z.inj_pow in H'.
    replace (Z.pos (Pos.size p)) with (Z.pos (Pos.size p) - 1 + 1) in H' by lia.
    rewrite Z.pow_add_r in H' by lia. lia.
  - pose proof (Pos.size_gt p) as H.
    assert (H' : Z.pos p < Z.pos (2 ^ Pos.size p)) by exact H.
    now rewrite Pos2Z.inj_pow in H'.
Qed.

(** The number of binary digits is fixed by the power of two below. *)
Lemma digits2_unique (p : positive) (d : Z) :
  2 ^ (d - 1) <= Z.pos p < 2 ^ d -> Z.pos (digits2_pos p) = d.
Proof.
  intros [Hlo Hhi]. pose proof (digits2_bounds p) as [Blo Bhi].
  assert (0 < d).
  { destruct (Z_lt_le_dec 0 d); [assumption |].
    rewrite (Z.pow_neg_r 2 (d - 1)) in Hlo by lia.
    destruct (Z.eq_dec d 0) as [-> | Hne]; [cbn in Hhi; lia |].
    rewrite Z.pow_neg_r in Hhi by lia. lia. }
  destruct (Z.lt_trichotomy (Z.pos (digits2_pos p)) d) as [Hlt | [Heq | Hgt]];
    [| assumption |].
  - assert (2 ^ Z.pos (digits2_pos p) <= 2 ^ (d - 1))
      by (apply Z.pow_le_mono_r; lia). lia.
  - assert (2 ^ d <= 2 ^ (Z.pos (digits2_pos p) - 1))
      by (apply Z.pow_le_mono_r; lia). lia.
Qed.

Lemma shr_1_step (m : Z) (r s : bool) :
  0 <= m ->
  shr_1 (Build_shr_record m r s)
  = Build_shr_record (m / 2) (Z.odd m) (r || s).
Proof.
  intros Hm. rewrite <- Z.div2_div.
  destruct m as [| [p | p |] |]; try lia; reflexivity.
Qed.

(** [k + 1] right shifts of an integer, with the round and sticky bits. *)
Lemma shr_1_iter (M : Z) (k : nat) :
  0 <= M ->
  Nat.iter (S k) shr_1 (Build_shr_record M false false)
  = Build_shr_record (M / 2 ^ Z.of_nat (S k))
      (Z.odd (M / 2 ^ Z.of_nat k))
      (negb (M mod 2 ^ Z.of_nat k =? 0)).
Proof.
  intros HM. induction k as [| k IH].
  - cbn [Nat.iter]. rewrite shr_1_step by assumption.
    change (2 ^ Z.of_nat 0) with 1.
    rewrite Z.div_1_r, Z.mod_1_r. reflexivity.
  - rewrite Nat.iter_succ, IH.
    assert (Hq : 0 <= M / 2 ^ Z.of_nat (S k)) by (apply Z.div_pos; lia).
    rewrite shr_1_step by assumption. f_equal.
    + rewrite Z.div_div by lia. f_equal.
      rewrite (Nat2Z.inj_succ (S k)), Z.pow_succ_r by lia. lia.
    + rewrite (Nat2Z.inj_succ k), Z.pow_succ_r by lia.
      rewrite Z.mul_comm, Z.rem_mul_r by lia.
      assert (H2 : 0 < 2 ^ Z.of_nat k) by lia.
      pose proof (Z.mod_pos_bound M (2 ^ Z.of_nat k) H2) as Hb.
      rewrite Zodd_mod.
      pose proof (Z.mod_pos_bound (M / 2 ^ Z.of_nat k) 2 ltac:(lia)) as Hc.
      destruct (Z.eqb_spec ((M / 2 ^ Z.of_nat k) mod 2) 1) as [E | E];
        destruct (Z.eqb_spec (M mod 2 ^ Z.of_nat k) 0) as [E0 | E0]; cbn;
        symmetry;
        [ apply negb_true_iff, Z.eqb_neq | apply negb_true_iff, Z.eqb_neq
        | apply negb_false_iff, Z.eqb_eq | apply negb_true_iff, Z.eqb_neq ];
        nia.
Qed.

Lemma shr_m_iter (k : nat) (m : Z) (r s : bool) :
  0 <= m -> shr_m (Nat.iter k shr_1 (Build_shr_record m r s)) = m / 2 ^ Z.of_nat k.
Proof.
  revert m r s. induction k as [| k IH]; intros m r s Hm.
  - cbn. now rewrite Z.div_1_r.
  - rewrite Nat.iter_succ_r, shr_1_step by assumption.
    rewrite IH by (apply Z.div_pos; lia). rewrite Z.div_div by lia. f_equal.
    rewrite Nat2Z.inj_succ, Z.pow_succ_r by lia. reflexivity.
Qed.

Lemma Zdigits2_bounds (M : Z) :
  0 < M -> 2 ^ (Zdigits2 M - 1) <= M < 2 ^ Zdigits2 M.
Proof. destruct M as [| p | p]; try lia. intros _. apply digits2_bounds. Qed.

Lemma Zdigits2_unique (M d : Z) :
  2 ^ (d - 1) <= M < 2 ^ d -> 0 < M -> Zdigits2 M = d.
Proof.
  destruct M as [| p | p]; try lia. intros H _. now apply digits2_unique.
Qed.

Lemma Zdigits2_pos (M : Z) : 0 < M -> 0 < Zdigits2 M.
Proof. destruct M; cbn; lia. Qed.

Lemma rne_bounds (M n : Z) : M / 2 ^ n <= rne M n <= M / 2 ^ n + 1.
Proof.
  unfold rne. destruct (_ ?= _); [destruct (Z.even _) | |]; lia.
Qed.

(** What [shr] and [round_nearest_even] compute together on an integer. *)
Lemma shr_round (M e n : Z) :
  0 <= M -> 0 < n ->
  exists mrs,
    shr (Build_shr_record M false false) e n = (mrs, e + n)
    /\ shr_m mrs = M / 2 ^ n
    /\ round_nearest_even (shr_m mrs) (loc_of_shr_record mrs) = rne M n.
Proof.
  intros HM Hn. destruct n as [| p | p]; try lia. unfold shr.
  rewrite iter_pos_nat.
  destruct (Pos2Nat.is_succ p) as [k Hk]. rewrite Hk.
  assert (Hp : Z.pos p = Z.of_nat (S k)) by lia.
  rewrite shr_1_iter by assumption. eexists. split; [reflexivity |].
  cbn [shr_m]. rewrite <- Hp. split; [reflexivity |].
  unfold rne. rewrite Hp, (Nat2Z.inj_succ k), Z.pow_succ_r by lia.
  set (P := 2 ^ Z.of_nat k). assert (HP : 0 < P) by (subst P; lia).
  rewrite (Z.mul_comm 2 P), Z.rem_mul_r by lia.
  rewrite <- Z.div_div by lia.
  pose proof (Z.mod_pos_bound M P HP) as Hb.
  pose proof (Z.mod_pos_bound (M / P) 2 ltac:(lia)) as Hc.
  rewrite Zodd_mod.
  destruct (Z.eqb_spec ((M / P) mod 2) 1) as [E | E];
    destruct (Z.eqb_spec (M mod P) 0) as [E0 | E0]; cbn [negb loc_of_shr_record
      round_nearest_even].
  - rewrite E, E0. replace (2 * (0 + P * 1) ?= P * 2) with Eq; [reflexivity |].
    symmetry. apply Z.compare_eq_iff. lia.
  - rewrite E. replace (2 * (M mod P + P * 1) ?= P * 2) with Gt; [reflexivity |].
    symmetry. apply Z.compare_gt_iff. lia.
  - assert (E1 : (M / P) mod 2 = 0) by lia. rewrite E1, E0.
    replace (2 * (0 + P * 0) ?= P * 2) with Lt; [reflexivity |].
    symmetry. apply Z.compare_lt_iff. lia.
  - assert (E1 : (M / P) mod 2 = 0) by lia. rewrite E1.
    replace (2 * (M mod P + P * 0) ?= P * 2) with Lt; [reflexivity |].
    symmetry. apply Z.compare_lt_iff. lia.
Qed.

Lemma shr_none (mrs : shr_record) (e n : Z) : n <= 0 -> shr mrs e n = (mrs, e).
Proof. destruct n; try lia; reflexivity. Qed.

Lemma binary_round_aux_exact (s : bool) (M e : Z) :
  0 <= M ->
  binary_round_aux prec emax s M e loc_Exact
  = match fst (round_shift M e) with
    | Z0 => S754_zero s
    | Z.pos m =>
        if snd (round_shift M e) <=? emax - prec
        then S754_finite s m (snd (round_shift M e))
        else S754_infinity s
    | _ => S754_nan
    end.
Proof.
  intros HM. unfold binary_round_aux, round_shift, shr_fexp.
  cbn [shr_record_of_loc].
  set (n := fexp prec emax (Zdigits2 M + e) - e).
  assert (H1 : exists mrs,
             shr (Build_shr_record M false false) e n
             = (mrs, if 0 <? n then e + n else e)
             /\ round_nearest_even (shr_m mrs) (loc_of_shr_record mrs)
                = (if 0 <? n then rne M n else M)
             /\ 0 <= (if 0 <? n then rne M n else M)).
  { destruct (Z.ltb_spec 0 n) as [Hn | Hn].
    - destruct (shr_round M e n HM Hn) as (mrs & Hs & Hm & Hr).
      exists mrs. split; [exact Hs |]. split; [exact Hr |].
      pose proof (rne_bounds M n). assert (0 <= M / 2 ^ n) by (apply Z.div_pos; lia).
      lia.
    - exists (Build_shr_record M false false).
      rewrite shr_none by assumption. repeat split. assumption. }
  destruct H1 as (mrs & -> & -> & Hm2).
  set (m2 := if 0 <? n then rne M n else M) in *.
  set (e1 := if 0 <? n then e + n else e).
  set (n2 := fexp prec emax (Zdigits2 m2 + e1) - e1).
  destruct (Z.ltb_spec 0 n2) as [Hn2 | Hn2].
  - destruct n2 as [| p | p] eqn:E; try lia. unfold shr.
    rewrite iter_pos_nat, shr_m_iter by assumption.
    rewrite positive_nat_Z. reflexivity.
  - rewrite shr_none by assumption. reflexivity.
Qed.

(** *** Addition of two positive numbers *)

Lemma shl_align_value (mx : positive) (ex ez : Z) :
  ez <= ex ->
  Z.pos (fst (shl_align mx ex ez)) = Z.pos mx * 2 ^ (ex - ez).
Proof.
  intros H. unfold shl_align.
  destruct (ez - ex) as [| d | d] eqn:E; try lia.
  - replace (ex - ez) with 0 by lia. cbn [fst]. lia.
  - cbn [fst]. replace (ex - ez) with (Z.pos d) by lia.
    change (Pos.iter xO mx d) with (shift_pos d mx).
    rewrite shift_pos_correct, Zpower_pos_nat, Zpower_nat_Z, positive_nat_Z.
    lia.
Qed.

Lemma dadd_pos (m1 m2 : positive) (e1 e2 : Z) :
  let ez := Z.min e1 e2 in
  let M := Z.pos m1 * 2 ^ (e1 - ez) + Z.pos m2 * 2 ^ (e2 - ez) in
  ez <= fexp prec emax (Zdigits2 M + ez) ->
  (S754_finite false m1 e1 + S754_finite false m2 e2)%D
  = binary_round_aux prec emax false M ez loc_Exact.
Proof.
  intros ez M Hno. unfold dadd, SFadd. fold ez. cbn [cond_Zopp].
  rewrite !shl_align_value by (subst ez; lia). fold M.
  assert (HM : 0 < M) by (subst M; nia).
  destruct M as [| M' | M'] eqn:EM; try lia.
  cbn [binary_normalize]. unfold binary_round.
  change (Z.pos (digits2_pos M')) with (Zdigits2 (Z.pos M')).
  unfold shl_align.
  destruct (fexp prec emax (Zdigits2 (Z.pos M') + ez) - ez) eqn:E; try lia;
    reflexivity.
Qed.

Lemma d_half_eq : d_half = S754_finite false 4503599627370496 (-53).
Proof. vm_compute. reflexivity. Qed.

Lemma pow2_split (a b : Z) : 0 <= a -> 0 <= b -> 2 ^ (a + b) = 2 ^ a * 2 ^ b.
Proof. intros. apply Z.pow_add_r; assumption. Qed.

(** The heart of the rounding of [x + 0.5] for [0.5 <= x < 2^31]: the
    mantissa [mx] has 53 bits and the exponent is [K - 53] with
    [0 <= K <= 31].  The rounded sum has the integer part of the exact
    sum. *)
Lemma round_shift_add_half (mx K : Z) :
  2 ^ 52 <= mx < 2 ^ 53 -> 0 <= K <= 31 ->
  let M := mx * 2 ^ K + 2 ^ 52 in
  exists m3 e3,
    round_shift M (-53) = (Z.pos m3, e3)
    /\ -53 <= e3 <= -21
    /\ Z.pos m3 / 2 ^ (- e3) = M / 2 ^ 53.
Proof.
  intros Hmx HK M.
  assert (HP : 0 < 2 ^ K) by lia.
  assert (H52 : 2 ^ 52 = 2 ^ (52 - K) * 2 ^ K)
    by (rewrite <- pow2_split by lia; f_equal; lia).
  assert (HK31 : 2 ^ K <= 2 ^ 31) by (apply Z.pow_le_mono_r; lia).
  assert (HPK : 2 ^ 21 <= 2 ^ (52 - K)) by (apply Z.pow_le_mono_r; lia).
  set (P := 2 ^ (52 - K)) in *. set (T := 2 ^ K) in *.
  assert (HMeq : M = (mx + P) * T) by (subst M; lia).
  assert (HM0 : 0 < M) by nia.
  destruct (Z_lt_ge_dec M (2 ^ (53 + K))) as [Hsmall | Hbig].
  - (* the sum has 53 + K digits: the shift by K is exact *)
    assert (Hd : Zdigits2 M = 53 + K).
    { apply Zdigits2_unique; [| assumption]. split; [| assumption].
      replace (53 + K - 1) with (52 + K) by lia.
      rewrite pow2_split by lia. fold T. nia. }
    assert (HK1 : 1 <= K).
    { destruct (Z.eq_dec K 0) as [-> |]; [| lia]. exfalso.
      change (2 ^ (53 + 0)) with (2 ^ 53) in Hsmall. subst M T. cbn in *. lia. }
    assert (Hrne : rne M K = mx + P).
    { unfold rne. fold T. rewrite HMeq, Z.div_mul, Z.mod_mul by lia.
      destruct (Z.compare_spec (2 * 0) T); [lia | reflexivity | lia]. }
    assert (Hm2 : 2 ^ 52 <= mx + P < 2 ^ 53).
    { split; [lia |]. rewrite pow2_split in Hsmall by lia. fold T in Hsmall.
      change (2 ^ 53) with 9007199254740992 in *. nia. }
    assert (Hd2 : Zdigits2 (mx + P) = 53).
    { apply Zdigits2_unique; [exact Hm2 | lia]. }
    unfold round_shift. rewrite Hd. unfold fexp, emin, prec, emax.
    replace (Z.max (53 + K + -53 - 53) (3 - 1024 - 53) - -53) with K by lia.
    destruct (Z.ltb_spec 0 K); [| lia]. rewrite Hrne, Hd2.
    replace (Z.max (53 + (-53 + K) - 53) (3 - 1024 - 53) - (-53 + K)) with 0
      by lia.
    cbn [Z.ltb Z.compare].
    destruct (mx + P) as [| m3 | m3] eqn:E3; try lia.
    exists m3, (-53 + K). split; [reflexivity |]. split; [lia |].
    replace (- (-53 + K)) with (53 - K) by lia.
    replace (2 ^ 53) with (2 ^ (53 - K) * T)
      by (subst T; rewrite <- pow2_split by lia; f_equal; lia).
    rewrite HMeq, Z.div_mul_cancel_r by lia. reflexivity.
  - (* the sum has 54 + K digits: one bit is rounded away *)
    assert (Hhi : M < 2 ^ (53 + K) + 2 ^ 52).
    { rewrite pow2_split by lia. fold T. subst M. nia. }
    assert (Hd : Zdigits2 M = 54 + K).
    { apply Zdigits2_unique; [| assumption].
      replace (54 + K - 1) with (53 + K) by lia. split; [lia |].
      replace (54 + K) with (1 + (53 + K)) by lia.
      rewrite (pow2_split 1) by lia. change (2 ^ 1) with 2.
      assert (2 ^ 52 <= 2 ^ (53 + K)) by (apply Z.pow_le_mono_r; lia). lia. }
    set (q := M / 2 ^ (K + 1)).
    assert (HT2 : 2 ^ (K + 1) = T * 2) by (rewrite pow2_split by lia; reflexivity).
    assert (Hq : 2 ^ 52 <= q /\ 2 * q <= 2 ^ 53 + P).
    { subst q. rewrite HT2, <- Z.div_div, HMeq, Z.div_mul by lia.
      rewrite pow2_split in Hbig, Hhi by lia. fold T in Hbig, Hhi.
      assert (2 ^ 53 <= mx + P) by nia.
      assert (mx + P < 2 ^ 53 + P) by nia.
      pose proof (Z.mul_div_le (mx + P) 2 ltac:(lia)).
      split; [| lia]. apply Z.div_le_lower_bound; lia. }
    pose proof (rne_bounds M (K + 1)) as Hr. fold q in Hr.
    set (m2 := rne M (K + 1)) in *.
    assert (HP2 : 2 * P <= 2 ^ 53).
    { rewrite H52 in *. change (2 ^ 53) with (2 * 2 ^ 52). nia. }
    assert (Hm2 : 2 ^ 52 <= m2 < 2 ^ 53).
    { change (2 ^ 53) with 9007199254740992 in *.
      change (2 ^ 52) with 4503599627370496 in *.
      change (2 ^ 21) with 2097152 in *. lia. }
    assert (Hd2 : Zdigits2 m2 = 53).
    { apply Zdigits2_unique; [exact Hm2 | lia]. }
    unfold round_shift. rewrite Hd. unfold fexp, emin, prec, emax.
    replace (Z.max (54 + K + -53 - 53) (3 - 1024 - 53) - -53) with (K + 1)
      by lia.
    destruct (Z.ltb_spec 0 (K + 1)); [| lia]. fold m2. rewrite Hd2.
    replace (Z.max (53 + (-53 + (K + 1)) - 53) (3 - 1024 - 53)
             - (-53 + (K + 1))) with 0 by lia.
    cbn [Z.ltb Z.compare].
    destruct m2 as [| m3 | m3] eqn:E3; try lia.
    exists m3, (-53 + (K + 1)). split; [reflexivity |]. split; [lia |].
    replace (- (-53 + (K + 1))) with (52 - K) by lia. fold P.
    assert (HqP : M / 2 ^ 53 = q / P).
    { subst q. rewrite Z.div_div by lia. f_equal.
      rewrite HT2. change (2 ^ 53) with (2 * 2 ^ 52). lia. }
    rewrite HqP.
    assert (Hq1 : q / P = T).
    { symmetry. apply Z.div_unique with (q - T * P); nia. }
    rewrite Hq1. symmetry. apply Z.div_unique with (Z.pos m3 - T * P).
    + change (2 ^ 53) with 9007199254740992 in *.
      change (2 ^ 52) with 4503599627370496 in *.
      change (2 ^ 21) with 2097152 in *. nia.
    + lia.
Qed.

Lemma Zdigits2_lower (M k : Z) : 0 <= k -> 2 ^ k <= M -> k < Zdigits2 M.
Proof.
  intros Hk H. assert (HM : 0 < M) by lia.
  pose proof (Zdigits2_bounds M HM) as [_ Hhi].
  pose proof (Zdigits2_pos M HM).
  apply (Z.pow_lt_mono_r_iff 2); lia.
Qed.

Lemma truncate_neg (s : bool) (m : positive) (e : Z) :
  e < 0 ->
  truncate (S754_finite s m e)
  = if s then - (Z.pos m / 2 ^ (- e)) else Z.pos m / 2 ^ (- e).
Proof. destruct e; try lia. reflexivity. Qed.

(** [(int) (x + 0.5)] for a binary64 number [x] with 53-bit mantissa [mx]
    and exponent [ex] between -53 and -22, that is for
    [0.5 <= x < 2^31]. *)
Lemma double_to_int_add_half (mx : positive) (ex : Z) :
  2 ^ 52 <= Z.pos mx < 2 ^ 53 -> -53 <= ex <= -22 ->
  Z.pos mx * 2 ^ (ex + 53) + 2 ^ 52 < 2 ^ 31 * 2 ^ 53 ->
  double_to_int (S754_finite false mx ex + d_half)%D
  = (Z.pos mx * 2 ^ (ex + 53) + 2 ^ 52) / 2 ^ 53.
Proof.
  intros Hmx Hex Hup. rewrite d_half_eq.
  assert (Hmin : Z.min ex (-53) = -53) by lia.
  set (M := Z.pos mx * 2 ^ (ex + 53) + 2 ^ 52).
  assert (HT : 1 <= 2 ^ (ex + 53)) by (apply Z.pow_le_mono_r with (b := 0); lia).
  assert (HM53 : 2 ^ 53 <= M).
  { subst M. change (2 ^ 53) with (2 ^ 52 + 2 ^ 52). nia. }
  rewrite dadd_pos; rewrite Hmin;
    replace (ex - -53) with (ex + 53) by lia;
    change (-53 - -53) with 0; change (2 ^ 0) with 1;
    change (Z.pos 4503599627370496 * 1) with (2 ^ 52); fold M.
  2:{ pose proof (Zdigits2_lower M 53 ltac:(lia) HM53).
      unfold fexp, emin, prec, emax. lia. }
  rewrite binary_round_aux_exact by lia.
  destruct (round_shift_add_half (Z.pos mx) (ex + 53) Hmx ltac:(lia))
    as (m3 & e3 & Hrs & He3 & Hdiv).
  fold M in Hrs, Hdiv. rewrite Hrs. cbn [fst snd].
  destruct (Z.leb_spec e3 (emax - prec)) as [_ | Hbad];
    [| unfold emax, prec in Hbad; lia].
  unfold double_to_int. rewrite truncate_neg by lia. rewrite Hdiv.
  assert (H0 : 0 <= M / 2 ^ 53) by (apply Z.div_pos; lia).
  assert (H1 : M / 2 ^ 53 < 2 ^ 31)
    by (apply Z.div_lt_upper_bound; lia).
  unfold INT_MIN, INT_MAX.
  destruct (Z.leb_spec (- 2 ^ 31) (M / 2 ^ 53)); [| lia].
  destruct (Z.leb_spec (M / 2 ^ 53) (2 ^ 31 - 1)); [| lia].
  reflexivity.
Qed.

(** A binary64 number between 0.5 and 2^31 - 0.5: positive, with a
    mantissa of 53 bits and an exponent between -53 and -22. *)
Lemma valid_half_to_int_range (x : double) :
  valid_binary prec emax x = true ->
  (1 # 2 <= value x)%Q -> (value x < inject_Z (2 ^ 31) - (1 # 2))%Q ->
  exists mx ex,
    x = S754_finite false mx ex
    /\ 2 ^ 52 <= Z.pos mx < 2 ^ 53
    /\ -53 <= ex <= -22
    /\ Z.pos mx * 2 ^ (ex + 53) + 2 ^ 52 < 2 ^ 31 * 2 ^ 53
    /\ value x = (Z.pos mx # Z.to_pos (2 ^ (- ex)))%Q.
Proof.
  intros Hv Hlo Hhi.
  destruct x as [s | s | | s mx ex]; try (cbn in Hlo; discriminate Hlo || (exfalso; apply Hlo; reflexivity)).
  destruct s.
  { exfalso. cbn in Hlo. destruct ex; cbn in Hlo; unfold Qle in Hlo; cbn in Hlo; lia. }
  cbn [valid_binary] in Hv. unfold bounded, canonical_mantissa in Hv.
  apply andb_true_iff in Hv as [Hc Hb]. apply Z.eqb_eq in Hc.
  apply Z.leb_le in Hb.
  pose proof (digits2_bounds mx) as [Dlo Dhi].
  set (d := Z.pos (digits2_pos mx)) in *.
  assert (Hd0 : 0 < d) by (subst d; lia).
  unfold fexp, emin, prec, emax in Hc, Hb.
  destruct ex as [| p | p].
  - exfalso. assert (d = 53) by lia.
    cbn [value] in Hhi. unfold Qlt in Hhi. cbn in Hhi.
    replace (d - 1) with 52 in Dlo by lia. lia.
  - exfalso. assert (d = 53) by lia.
    cbn [value] in Hhi. unfold Qlt in Hhi. cbn in Hhi.
    replace (d - 1) with 52 in Dlo by lia.
    assert (1 <= Z.pow_pos 2 p).
    { change (Z.pow_pos 2 p) with (2 ^ Z.pos p).
      apply Z.pow_le_mono_r with (b := 0); lia. }
    nia.
  - cbn [value] in Hlo, Hhi. unfold Qle in Hlo. unfold Qlt in Hhi.
    cbn in Hlo, Hhi. rewrite Pos2Z.inj_pow in Hlo, Hhi.
    set (Q := 2 ^ Z.pos p) in *.
    assert (HQ : 0 < Q) by (subst Q; lia).
    (* 2^p <= 2 mx < 2^(d+1), so p <= d *)
    assert (Hpd : Z.pos p <= d).
    { assert (Q < 2 ^ (d + 1)).
      { rewrite Z.pow_add_r by lia. change (2 ^ 1) with 2. lia. }
      apply Z.pow_lt_mono_r_iff in H; lia. }
    assert (Hd : d = 53) by lia.
    rewrite Hd in *. replace (53 - 1) with 52 in Dlo by lia.
    (* mx * 2 < (2^32 - 1) * Q, so Q > 2^21 *)
    assert (Hp22 : 22 <= Z.pos p).
    { destruct (Z_lt_le_dec (Z.pos p) 22) as [Hlt | Hge]; [| assumption].
      assert (Q <= 2 ^ 21) by (subst Q; apply Z.pow_le_mono_r; lia).
      change (2 ^ 52) with 4503599627370496 in *.
      change (2 ^ 21) with 2097152 in *. lia. }
    exists mx, (Z.neg p). split; [reflexivity |]. split; [lia |].
    split; [lia |]. split.
    + replace (Z.neg p + 53) with (53 - Z.pos p) by lia.
      assert (E : 2 ^ 53 = 2 ^ (53 - Z.pos p) * Q).
      { subst Q. rewrite <- Z.pow_add_r by lia. f_equal. lia. }
      assert (0 < 2 ^ (53 - Z.pos p)) by (apply Z.pow_pos_nonneg; lia).
      change (2 ^ 52) with 4503599627370496 in *.
      change (2 ^ 31) with 2147483648 in *.
      change (2 ^ 53) with 9007199254740992 in *. nia.
    + cbn [value]. f_equal. change (- Z.neg p) with (Z.pos p).
      rewrite <- Pos2Z.inj_pow. reflexivity.
Qed.

(** [(int) (x + 0.5)] is the integer nearest to [x], the upper one on a
    tie, for every binary64 number [x] from 0.5 up to, but excluding,
    2^31 - 0.5. *)
Lemma double_to_int_nearest (x : double) :
  valid_binary prec emax x = true ->
  (1 # 2 <= value x)%Q -> (value x < inject_Z (2 ^ 31) - (1 # 2))%Q ->
  nearest_ties_up (value x) (double_to_int (x + d_half)%D)
  /\ 1 <= double_to_int (x + d_half)%D <= INT_MAX.
Proof.
  intros Hv Hlo Hhi.
  destruct (valid_half_to_int_range x Hv Hlo Hhi)
    as (mx & ex & -> & Hmx & Hex & Hup & Hval).
  rewrite (double_to_int_add_half mx ex Hmx Hex Hup), Hval.
  set (T := 2 ^ (ex + 53)). set (Q := 2 ^ (- ex)).
  assert (HT : 0 < T) by (subst T; apply Z.pow_pos_nonneg; lia).
  assert (HQ : 0 < Q) by (subst Q; apply Z.pow_pos_nonneg; lia).
  assert (E : T * Q = 2 ^ 53).
  { subst T Q. rewrite <- Z.pow_add_r by lia. f_equal. lia. }
  set (M := Z.pos mx * T + 2 ^ 52) in *.
  pose proof (Z.div_mod M (2 ^ 53) ltac:(lia)) as Hdm.
  pose proof (Z.mod_pos_bound M (2 ^ 53) ltac:(lia)) as Hmod.
  set (r := M / 2 ^ 53) in *.
  assert (HQ1 : 2 ^ 22 <= Q) by (subst Q; apply Z.pow_le_mono_r; lia).
  change (2 ^ 53) with 9007199254740992 in *.
  change (2 ^ 52) with 4503599627370496 in *.
  change (2 ^ 31) with 2147483648 in *.
  change (2 ^ 22) with 4194304 in *.
  split.
  - unfold nearest_ties_up, Qle, Qlt. cbn.
    rewrite Z2Pos.id by lia. split; nia.
  - unfold INT_MAX. change (2 ^ 31) with 2147483648. split; nia.
Qed.

(** *** Every result of a rounding is a binary64 number *)

Lemma Zdigits2_nonneg (M : Z) : 0 <= Zdigits2 M.
Proof. destruct M; cbn; lia. Qed.

Lemma Zdigits2_small (M n : Z) :
  0 <= M -> Zdigits2 M <= n -> M / 2 ^ n = 0.
Proof.
  intros HM Hn. destruct (Z.eq_dec M 0) as [-> | Hne].
  - apply Z.div_0_l. pose proof (Zdigits2_nonneg 0). cbn in *.
    apply Z.pow_nonzero; lia.
  - pose proof (Zdigits2_bounds M ltac:(lia)) as [_ Hhi].
    pose proof (Zdigits2_pos M ltac:(lia)).
    apply Z.div_small. split; [lia |].
    assert (2 ^ Zdigits2 M <= 2 ^ n) by (apply Z.pow_le_mono_r; lia). lia.
Qed.

Lemma Zdigits2_shift (M n : Z) :
  0 < M -> 0 <= n < Zdigits2 M ->
  0 < M / 2 ^ n /\ Zdigits2 (M / 2 ^ n) = Zdigits2 M - n.
Proof.
  intros HM Hn. pose proof (Zdigits2_bounds M HM) as [Hlo Hhi].
  set (d := Zdigits2 M) in *.
  assert (HP : 0 < 2 ^ n) by (apply Z.pow_pos_nonneg; lia).
  assert (E1 : 2 ^ (d - 1) = 2 ^ (d - n - 1) * 2 ^ n).
  { rewrite <- Z.pow_add_r by lia. f_equal. lia. }
  assert (E2 : 2 ^ d = 2 ^ (d - n) * 2 ^ n).
  { rewrite <- Z.pow_add_r by lia. f_equal. lia. }
  assert (Hq : 2 ^ (d - n - 1) <= M / 2 ^ n < 2 ^ (d - n)).
  { split.
    - apply Z.div_le_lower_bound; lia.
    - apply Z.div_lt_upper_bound; lia. }
  assert (0 < 2 ^ (d - n - 1)) by (apply Z.pow_pos_nonneg; lia).
  split; [lia |].
  apply Zdigits2_unique; [| lia].
  replace (d - n - 1) with (d - n - 1) in Hq by lia. exact Hq.
Qed.

Lemma Zdigits2_succ (m : Z) :
  0 < m ->
  Zdigits2 (m + 1) = Zdigits2 m
  \/ (m + 1 = 2 ^ Zdigits2 m /\ Zdigits2 (m + 1) = Zdigits2 m + 1).
Proof.
  intros Hm. pose proof (Zdigits2_bounds m Hm) as [Hlo Hhi].
  pose proof (Zdigits2_pos m Hm) as Hd.
  destruct (Z.eq_dec (m + 1) (2 ^ Zdigits2 m)) as [E | E].
  - right. split; [assumption |].
    apply Zdigits2_unique; [| lia].
    replace (Zdigits2 m + 1 - 1) with (Zdigits2 m) by lia.
    rewrite Z.pow_add_r by lia. change (2 ^ 1) with 2. lia.
  - left. apply Zdigits2_unique; lia.
Qed.

Lemma round_nearest_even_bounds (m : Z) (l : location) :
  m <= round_nearest_even m l <= m + 1.
Proof.
  destruct l as [| []]; cbn; try lia. destruct (Z.even m); lia.
Qed.

Lemma shr_m_shr (m e n : Z) (l : location) :
  0 <= m -> 0 <= n ->
  exists mrs,
    shr (shr_record_of_loc m l) e n = (mrs, e + n) /\ shr_m mrs = m / 2 ^ n.
Proof.
  intros Hm Hn. destruct n as [| p | p]; try lia.
  - eexists. split; [cbn; rewrite Z.add_0_r; reflexivity |].
    change (2 ^ 0) with 1. rewrite Z.div_1_r. now destruct l as [| []].
  - unfold shr. rewrite iter_pos_nat. eexists. split; [reflexivity |].
    destruct l as [| []]; cbn [shr_record_of_loc];
      rewrite shr_m_iter by assumption; now rewrite positive_nat_Z.
Qed.

Lemma fexp_mono (a b : Z) : a <= b -> fexp prec emax a <= fexp prec emax b.
Proof. unfold fexp. lia. Qed.

(** Whatever the integer and the location of the exact value are, if the
    exponent is not above the one the format gives the integer, the
    rounding returns a binary64 number. *)
Lemma binary_round_aux_valid (s : bool) (mz ez : Z) (lz : location) :
  0 <= mz -> ez <= fexp prec emax (Zdigits2 mz + ez) ->
  valid_binary prec emax (binary_round_aux prec emax s mz ez lz) = true.
Proof.
  intros Hmz Hpre. unfold binary_round_aux, shr_fexp.
  set (n := fexp prec emax (Zdigits2 mz + ez) - ez).
  assert (Hn : 0 <= n) by (subst n; lia).
  destruct (shr_m_shr mz ez n lz Hmz Hn) as (mrs & -> & Hm1).
  set (e1 := ez + n).
  assert (He1 : e1 = fexp prec emax (Zdigits2 mz + ez)) by (subst e1 n; lia).
  pose proof (round_nearest_even_bounds (shr_m mrs) (loc_of_shr_record mrs))
    as Hr.
  set (m2 := round_nearest_even (shr_m mrs) (loc_of_shr_record mrs)) in *.
  rewrite Hm1 in Hr. set (m1 := mz / 2 ^ n) in *.
  assert (Hm1pos : 0 <= m1) by (apply Z.div_pos; [lia | apply Z.pow_pos_nonneg; lia]).
  cbn [shr_record_of_loc].
  (* the mantissa and exponent after the second shift *)
  assert (Hfin : exists m3 e3,
             shr (Build_shr_record m2 false false) e1
               (fexp prec emax (Zdigits2 m2 + e1) - e1)
             = (m3, e3)
             /\ (shr_m m3 = 0
                 \/ (0 < shr_m m3
                     /\ fexp prec emax (Zdigits2 (shr_m m3) + e3) = e3))).
  { destruct (Z.eq_dec m1 0) as [E0 | Hne].
    - (* everything was shifted out: the exponent is the least one *)
      assert (Hemin : e1 = emin prec emax).
      { destruct (Z.eq_dec mz 0) as [-> | Hz].
        - cbn [Zdigits2] in *. unfold fexp, emin, prec, emax in *. lia.
        - destruct (Z_lt_le_dec n (Zdigits2 mz)) as [Hlt | Hge].
          + destruct (Zdigits2_shift mz n ltac:(lia) ltac:(lia)). lia.
          + unfold fexp, emin, prec, emax in *. lia. }
      destruct (Z.eq_dec m2 0) as [-> | H2].
      + cbn [Zdigits2].
        destruct (shr_m_shr 0 e1 (Z.max 0 (fexp prec emax (0 + e1) - e1))
                    loc_Exact ltac:(lia) ltac:(lia)) as (mrs2 & Hs & Hm).
        destruct (Z_le_gt_dec (fexp prec emax (0 + e1) - e1) 0).
        * rewrite shr_none by lia. eexists _, _. split; [reflexivity |].
          now left.
        * rewrite Z.max_r in Hs by lia. cbn [shr_record_of_loc] in Hs.
          rewrite Hs. eexists _, _. split; [reflexivity |]. left.
          rewrite Hm. apply Z.div_0_l. apply Z.pow_nonzero; lia.
      + assert (E2 : m2 = 1) by lia. rewrite E2. cbn [Zdigits2 digits2_pos].
        rewrite shr_none by (unfold fexp, emin, prec, emax in *; lia).
        eexists _, _. split; [reflexivity |]. right. cbn [shr_m Zdigits2 digits2_pos].
        split; [lia |]. unfold fexp, emin, prec, emax in *. lia.
    - assert (Hz : 0 < mz).
      { destruct (Z.eq_dec mz 0) as [-> |]; [| lia].
        subst m1. rewrite Z.div_0_l in Hne; [lia |].
        apply Z.pow_nonzero; lia. }
      assert (Hlt : n < Zdigits2 mz).
      { destruct (Z_lt_le_dec n (Zdigits2 mz)); [assumption |].
        subst m1. rewrite Zdigits2_small in Hne; lia. }
      destruct (Zdigits2_shift mz n Hz ltac:(lia)) as [Hq Hdq]. fold m1 in Hq, Hdq.
      assert (Hcan : fexp prec emax (Zdigits2 m1 + e1) = e1).
      { rewrite Hdq, He1. f_equal. subst e1. lia. }
      destruct (Z.eq_dec m2 m1) as [-> | H2].
      + rewrite shr_none by lia. eexists _, _. split; [reflexivity |].
        right. cbn [shr_m]. split; assumption.
      + assert (E2 : m2 = m1 + 1) by lia. rewrite E2.
        destruct (Zdigits2_succ m1 Hq) as [Hsame | [Hpow Hmore]].
        * rewrite Hsame, shr_none by lia. eexists _, _. split; [reflexivity |].
          right. cbn [shr_m]. rewrite Hsame. split; [lia | assumption].
        * rewrite Hmore.
          pose proof (Zdigits2_pos m1 Hq) as Hd1.
          destruct (Z_le_gt_dec (fexp prec emax (Zdigits2 m1 + 1 + e1) - e1) 0)
            as [Hle | Hgt].
          -- rewrite shr_none by lia. eexists _, _. split; [reflexivity |].
             right. cbn [shr_m]. rewrite Hmore. split; [lia |].
             unfold fexp, emin, prec, emax in *. lia.
          -- assert (Hone : fexp prec emax (Zdigits2 m1 + 1 + e1) - e1 = 1)
               by (unfold fexp, emin, prec, emax in *; lia).
             rewrite Hone. unfold shr. cbn [SpecFloat.iter_pos].
             rewrite shr_1_step by lia. eexists _, _. split; [reflexivity |].
             right. cbn [shr_m]. rewrite Hpow.
             assert (Ehalf : 2 ^ Zdigits2 m1 / 2 = 2 ^ (Zdigits2 m1 - 1)).
             { replace (Zdigits2 m1) with (Zdigits2 m1 - 1 + 1) at 1 by lia.
               rewrite Z.pow_add_r by lia. change (2 ^ 1) with 2.
               apply Z.div_mul. lia. }
             rewrite Ehalf.
             assert (Hp : 0 < 2 ^ (Zdigits2 m1 - 1))
               by (apply Z.pow_pos_nonneg; lia).
             split; [assumption |].
             rewrite (Zdigits2_unique _ (Zdigits2 m1)).
             ++ unfold fexp, emin, prec, emax in *. lia.
             ++ split; [lia |]. apply Z.pow_lt_mono_r; lia.
             ++ assumption. }
  destruct Hfin as (m3 & e3 & -> & Hcases).
  destruct Hcases as [-> | [Hpos Hcan]]; [reflexivity |].
  destruct (shr_m m3) as [| p | p] eqn:E; try lia.
  destruct (Z.leb_spec e3 (emax - prec)) as [Hle | Hgt]; [| reflexivity].
  cbn [valid_binary]. unfold bounded, canonical_mantissa.
  apply andb_true_iff. split; [apply Z.eqb_eq; exact Hcan | now apply Z.leb_le].
Qed.

Lemma div_digits (a b : Z) :
  0 < a -> 0 < b -> Zdigits2 a - Zdigits2 b <= Zdigits2 (a / b).
Proof.
  intros Ha Hb.
  pose proof (Zdigits2_bounds a Ha) as [Alo Ahi].
  pose proof (Zdigits2_bounds b Hb) as [Blo Bhi].
  pose proof (Zdigits2_pos a Ha). pose proof (Zdigits2_pos b Hb).
  pose proof (Zdigits2_nonneg (a / b)).
  destruct (Z_le_gt_dec (Zdigits2 a) (Zdigits2 b)) as [Hle | Hgt]; [lia |].
  set (k := Zdigits2 a - 1 - Zdigits2 b).
  assert (Hk : 0 <= k) by (subst k; lia).
  assert (Hq : 2 ^ k <= a / b).
  { apply Z.div_le_lower_bound; [lia |].
    assert (E : 2 ^ (Zdigits2 a - 1) = 2 ^ Zdigits2 b * 2 ^ k).
    { rewrite <- Z.pow_add_r by lia. f_equal. subst k. lia. }
    assert (0 < 2 ^ k) by (apply Z.pow_pos_nonneg; lia). nia. }
  pose proof (Zdigits2_lower (a / b) k Hk Hq). subst k. lia.
Qed.

(** Every quotient is a binary64 number, whatever the operands. *)
Lemma ddiv_valid (x y : double) : valid_binary prec emax (x / y)%D = true.
Proof.
  unfold ddiv, SFdiv.
  destruct x as [sx | sx | | sx mx ex], y as [sy | sy | | sy my ey];
    try reflexivity.
  unfold SFdiv_core_binary.
  set (d1 := Zdigits2 (Z.pos mx)). set (d2 := Zdigits2 (Z.pos my)).
  set (e' := Z.min (fexp prec emax (d1 + ex - (d2 + ey))) (ex - ey)).
  set (s := ex - ey - e').
  assert (Hs : 0 <= s) by (subst s e'; lia).
  set (m' := match s with
             | 0 => Z.pos mx
             | Z.pos _ => Z.shiftl (Z.pos mx) s
             | Z.neg _ => 0
             end).
  assert (Hm' : m' = Z.pos mx * 2 ^ s).
  { subst m'. destruct s as [| p | p] eqn:E; try lia.
    apply Z.shiftl_mul_pow2. lia. }
  assert (HP : 0 < 2 ^ s) by (apply Z.pow_pos_nonneg; lia).
  assert (Hm'pos : 0 < m') by nia.
  pose proof (Z_div_mod m' (Z.pos my) ltac:(lia)) as Hdm.
  destruct (Z.div_eucl m' (Z.pos my)) as [q r] eqn:Eqr.
  assert (Hq : q = m' / Z.pos my).
  { unfold Z.div. now rewrite Eqr. }
  apply binary_round_aux_valid.
  - rewrite Hq. apply Z.div_pos; lia.
  - assert (Hdm' : Zdigits2 m' = d1 + s).
    { apply Zdigits2_unique; [| assumption].
      pose proof (Zdigits2_bounds (Z.pos mx) ltac:(lia)) as [Lo Hi].
      fold d1 in Lo, Hi.
      assert (0 < d1) by (subst d1; cbn; lia).
      replace (d1 + s - 1) with (d1 - 1 + s) by lia.
      rewrite !Z.pow_add_r by lia. nia. }
    pose proof (div_digits m' (Z.pos my) Hm'pos ltac:(lia)) as Hdq.
    rewrite <- Hq, Hdm' in Hdq. fold d2 in Hdq.
    transitivity (fexp prec emax (d1 + ex - (d2 + ey))); [subst e'; lia |].
    apply fexp_mono. subst s. lia.
Qed.

(** *** Below one half *)

Lemma rne_up (M n : Z) :
  rne M n = M / 2 ^ n + 1 -> 2 ^ n <= 2 * (M mod 2 ^ n).
Proof.
  unfold rne. destruct (Z.compare_spec (2 * (M mod 2 ^ n)) (2 ^ n)); lia.
Qed.

(** [(int) (x + 0.5)] is 0 for every binary64 number [x] from 0 up to, but
    excluding, 0.5, other than the last one: there the sum is rounded up
    to 1. *)
Lemma double_to_int_small (x : double) :
  valid_binary prec emax x = true ->
  is_finite x = true ->
  (0 <= value x)%Q -> (value x < 1 # 2)%Q ->
  x <> below_half ->
  double_to_int (x + d_half)%D = 0.
Proof.
  intros Hv Hfin Hlo Hhi Hne.
  destruct x as [s | s | | s mx ex]; try discriminate Hfin.
  { rewrite d_half_eq. destruct s; vm_compute; reflexivity. }
  destruct s.
  { exfalso. cbn in Hlo. destruct ex; cbn in Hlo; unfold Qle in Hlo;
      cbn in Hlo; lia. }
  cbn [valid_binary] in Hv. unfold bounded, canonical_mantissa in Hv.
  apply andb_true_iff in Hv as [Hc _]. apply Z.eqb_eq in Hc.
  pose proof (digits2_bounds mx) as [Dlo Dhi].
  set (d := Z.pos (digits2_pos mx)) in *.
  assert (Hd0 : 0 < d) by (subst d; lia).
  unfold fexp, emin, prec, emax in Hc.
  assert (Hd53 : d <= 53) by lia.
  assert (Hmx53 : Z.pos mx < 2 ^ 53).
  { assert (2 ^ d <= 2 ^ 53) by (apply Z.pow_le_mono_r; lia). lia. }
  (* the exponent is at most -54, and mx * 2^ex < 1/2 *)
  assert (Hex : ex <= -54 /\ Z.pos mx < 2 ^ (-1 - ex)).
  { destruct ex as [| p | p].
    - exfalso. cbn [value] in Hhi. unfold Qlt in Hhi. cbn in Hhi. lia.
    - exfalso. cbn [value] in Hhi. unfold Qlt in Hhi. cbn in Hhi.
      assert (0 < 2 ^ Z.pos p) by (apply Z.pow_pos_nonneg; lia). nia.
    - cbn [value] in Hhi. unfold Qlt in Hhi. cbn in Hhi.
      rewrite Pos2Z.inj_pow in Hhi.
      destruct (Z_le_gt_dec (Z.neg p) (-54)) as [Hle | Hgt].
      + split; [assumption |].
        replace (2 ^ Z.pos p) with (2 * 2 ^ (-1 - Z.neg p)) in Hhi; [lia |].
        change 2 with (2 ^ 1) at 1. rewrite <- Z.pow_add_r by lia.
        f_equal. lia.
      + exfalso. assert (d = 53) by lia.
        replace (d - 1) with 52 in Dlo by lia.
        assert (2 ^ Z.pos p <= 2 ^ 53) by (apply Z.pow_le_mono_r; lia).
        lia. }
  destruct Hex as [Hex Hsmall].
  set (J := -53 - ex). assert (HJ : 1 <= J) by (subst J; lia).
  rewrite d_half_eq.
  assert (Hmin : Z.min ex (-53) = ex) by lia.
  set (M := Z.pos mx + 2 ^ 52 * 2 ^ J).
  assert (HPJ : 2 <= 2 ^ J).
  { change 2 with (2 ^ 1) at 1. apply Z.pow_le_mono_r; lia. }
  assert (E52 : 2 ^ (-1 - ex) = 2 ^ 52 * 2 ^ J).
  { rewrite <- Z.pow_add_r by lia. f_equal. subst J. lia. }
  rewrite E52 in Hsmall.
  assert (HdM : Zdigits2 M = 53 + J).
  { apply Zdigits2_unique; [| subst M; lia].
    replace (53 + J - 1) with (52 + J) by lia.
    rewrite !Z.pow_add_r by lia. change (2 ^ 53) with (2 * 2 ^ 52).
    subst M. lia. }
  rewrite dadd_pos; rewrite Hmin; rewrite Z.sub_diag;
    replace (-53 - ex) with J by (subst J; lia);
    change (2 ^ 0) with 1; rewrite Z.mul_1_r;
    change (Z.pos 4503599627370496) with (2 ^ 52); fold M.
  2:{ rewrite HdM. unfold fexp, emin, prec, emax. subst J. lia. }
  rewrite binary_round_aux_exact by (subst M; lia).
  (* the rounded mantissa stays below 2^53 *)
  assert (Hq0 : M / 2 ^ J = 2 ^ 52 + Z.pos mx / 2 ^ J).
  { subst M. rewrite Z.div_add by lia. lia. }
  assert (Hmod : M mod 2 ^ J = Z.pos mx mod 2 ^ J).
  { subst M. rewrite Z.mod_add by lia. reflexivity. }
  pose proof (rne_bounds M J) as Hr.
  pose proof (Z.div_mod (Z.pos mx) (2 ^ J) ltac:(lia)) as Hdm.
  pose proof (Z.mod_pos_bound (Z.pos mx) (2 ^ J) ltac:(lia)) as Hmb.
  assert (Hqm : 0 <= Z.pos mx / 2 ^ J < 2 ^ 52).
  { split; [apply Z.div_pos; lia | apply Z.div_lt_upper_bound; lia]. }
  assert (Hm2 : 2 ^ 52 <= rne M J < 2 ^ 53).
  { split; [lia |].
    destruct (Z.eq_dec (rne M J) (M / 2 ^ J + 1)) as [Eup | Enot];
      [| change (2 ^ 53) with (2 * 2 ^ 52); lia].
    apply rne_up in Eup. rewrite Hmod in Eup.
    destruct (Z.eq_dec (Z.pos mx / 2 ^ J) (2 ^ 52 - 1)) as [Etop | Elow];
      [| change (2 ^ 53) with (2 * 2 ^ 52); lia].
    exfalso.
    (* mx >= (2^52 - 1) 2^J + 2^(J-1) and mx < 2^53 force J = 1 *)
    destruct (Z.eq_dec J 1) as [EJ | NJ].
    - rewrite EJ in *. change (2 ^ 1) with 2 in *.
      assert (Emx : Z.pos mx = 2 ^ 53 - 1).
      { change (2 ^ 53) with (2 * 2 ^ 52) in *. lia. }
      apply Hne. unfold below_half. f_equal; [| subst J; lia].
      apply Pos2Z.inj. rewrite Emx. reflexivity.
    - assert (4 <= 2 ^ J).
      { change 4 with (2 ^ 2). apply Z.pow_le_mono_r; lia. }
      change (2 ^ 53) with (2 * 2 ^ 52) in *.
      change (2 ^ 52) with 4503599627370496 in *. nia. }
  assert (Hd2 : Zdigits2 (rne M J) = 53)
    by (apply Zdigits2_unique; [exact Hm2 | lia]).
  unfold round_shift. rewrite HdM. unfold fexp, emin, prec, emax.
  replace (Z.max (53 + J + ex - 53) (3 - 1024 - 53) - ex) with J
    by (subst J; lia).
  destruct (Z.ltb_spec 0 J); [| lia]. rewrite Hd2.
  replace (Z.max (53 + (ex + J) - 53) (3 - 1024 - 53) - (ex + J)) with 0
    by (subst J; lia).
  cbn [Z.ltb Z.compare fst snd].
  destruct (rne M J) as [| m3 | m3] eqn:E3; try lia.
  replace (ex + J) with (-53) by (subst J; lia).
  cbn [Z.leb Z.compare]. change (-53 <=? 1024 - 53) with true. cbv iota.
  unfold double_to_int. rewrite truncate_neg by lia.
  change (- -53) with 53. rewrite Z.div_small by lia. reflexivity.
Qed.
(** ** The transmit queue *)

Lemma getTXBufferSize_behind (m : Mac) :
  0 <= macBufferSize m -> 0 <= headTxBuffer m <= macBufferSize m ->
  tail_behind_head m ->
  getTXBufferSize m = macBufferSize m.
Proof.
  intros HN Hh Hb. unfold getTXBufferSize, MAC_BUFFER_ARRAY_SIZE.
  destruct Hb as [Ht | [H0 Ht]]; rewrite Ht.
  - replace (headTxBuffer m - 1 - headTxBuffer m) with (-1) by lia.
    simpl. lia.
  - rewrite H0, Z.sub_0_r. destruct (Z.ltb_spec (macBufferSize m) 0); lia.
Qed.

Lemma BUFFER_IS_FULL_behind (m : Mac) :
  0 <= macBufferSize m -> 0 <= headTxBuffer m <= macBufferSize m ->
  tail_behind_head m ->
  BUFFER_IS_FULL m = true.
Proof.
  intros HN Hh Hb. unfold BUFFER_IS_FULL.
  rewrite getTXBufferSize_behind by assumption.
  apply Z.geb_le. lia.
Qed.

Lemma pushBuffer_behind (f : MAC_GenericFrame) (m : Mac) :
  0 <= macBufferSize m -> 0 <= headTxBuffer m <= macBufferSize m ->
  tail_behind_head m ->
  exists m1, pushBuffer (Some f) m = (0, m1)
    /\ tail_behind_head m1
    /\ headTxBuffer m1 = headTxBuffer m
    /\ macBufferSize m1 = macBufferSize m
    /\ schedTXBuffer m1 = schedTXBuffer m
    /\ outbox m1 = outbox m.
Proof.
  intros HN Hh Hb. unfold pushBuffer, MAC_BUFFER_ARRAY_SIZE. cbn.
  assert (Hrem : Z.rem (tailTxBuffer m + 1) (macBufferSize m + 1) = headTxBuffer m).
  { destruct Hb as [Ht | [H0 Ht]]; rewrite Ht.
    - replace (headTxBuffer m - 1 + 1) with (headTxBuffer m) by lia.
      apply Z.rem_small. lia.
    - rewrite H0. apply Z.rem_same. lia. }
  rewrite Hrem, Z.eqb_refl.
  destruct (Z.eqb_spec (headTxBuffer m) 0) as [H0 | H0]; eexists; split;
    try reflexivity; cbn; unfold tail_behind_head; cbn; repeat split; auto.
  right. split; [assumption | lia].
Qed.

Lemma pushAll_behind (fs : list MAC_GenericFrame) (m : Mac) :
  0 <= macBufferSize m -> 0 <= headTxBuffer m <= macBufferSize m ->
  tail_behind_head m ->
  exists m1, pushAll fs m = (replicate (length fs) 0, m1)
    /\ tail_behind_head m1
    /\ headTxBuffer m1 = headTxBuffer m
    /\ macBufferSize m1 = macBufferSize m
    /\ schedTXBuffer m1 = schedTXBuffer m
    /\ outbox m1 = outbox m.
Proof.
  revert m. induction fs as [| f fs IH]; intros m HN Hh Hb.
  - exists m. cbn. repeat split; auto.
  - destruct (pushBuffer_behind f m HN Hh Hb)
      as (m1 & Hp & Hb1 & Hh1 & HN1 & Hs1 & Ho1).
    destruct (IH m1) as (m2 & Hq & Hb2 & Hh2 & HN2 & Hs2 & Ho2);
      [lia | lia | assumption |].
    exists m2. cbn [pushAll length replicate]. rewrite Hp, Hq.
    repeat split; congruence || assumption.
Qed.

Lemma pushFrameIntoBuffer_full (msg : cMessage) (m : Mac) :
  BUFFER_IS_FULL m = true ->
  pushFrameIntoBuffer msg m
  = Some (send (MAC_ControlMessage MAC_2_NETWORK_FULL_BUFFER) toNetworkModule m).
Proof. intros Hfull. unfold pushFrameIntoBuffer. now rewrite Hfull. Qed.

Lemma popTxBuffer_nonempty (m : Mac) :
  tailTxBuffer m <> headTxBuffer m ->
  popTxBuffer m =
    match slot (headTxBuffer m) m with
    | Some (Some dataFrame) =>
        let t := (int_to_double (byteLength dataFrame + phyLayerOverhead m)
                  * d_8 / (d_1000 * radioDataRate m))%D in
        Some (Some dataFrame,
              set_headTxBuffer
                (Z.rem (headTxBuffer m + 1) (MAC_BUFFER_ARRAY_SIZE m))
                (set_redundancy (double_to_int (sleepInterval m / t + d_half)%D)
                   (set_dataTXtime t m)))
    | _ => None
    end.
Proof.
  intros Hne. unfold popTxBuffer.
  destruct (Z.eqb_spec (tailTxBuffer m) (headTxBuffer m)); [contradiction |].
  reflexivity.
Qed.

(** C9.  On a queue of capacity at least 1 whose head index lies in the
    array, a pop with the head equal to the tail returns [NULL] and moves
    the tail one slot behind the head.  From then on getTXBufferSize reports
    [macBufferSize] and the full-buffer predicate holds; whatever frames are
    pushed next, pushBuffer returns 0 for each and stores nothing, and
    pushFrameIntoBuffer answers with the full-buffer notification; and a
    pop no longer takes the empty-queue exit: it hands out whatever the slot
    under the head holds, although the queue holds no frame. *)
Theorem popTxBuffer_empty_then_full (m : Mac) :
  1 <= macBufferSize m ->
  0 <= headTxBuffer m <= macBufferSize m ->
  headTxBuffer m = tailTxBuffer m ->
  exists m1,
    popTxBuffer m = Some (None, m1)
    /\ tailTxBuffer m1 = tailTxBuffer m - 1
    /\ getTXBufferSize m1 = macBufferSize m
    /\ BUFFER_IS_FULL m1 = true
    /\ forall fs : list MAC_GenericFrame, exists m2,
         pushAll fs m1 = (replicate (length fs) 0, m2)
         /\ schedTXBuffer m2 = schedTXBuffer m
         /\ getTXBufferSize m2 = macBufferSize m
         /\ BUFFER_IS_FULL m2 = true
         /\ (forall msg,
               pushFrameIntoBuffer msg m2
               = Some (send (MAC_ControlMessage MAC_2_NETWORK_FULL_BUFFER)
                            toNetworkModule m2))
         /\ (forall m3, popTxBuffer m2 <> Some (None, m3))
         /\ (forall f, slot (headTxBuffer m) m = Some (Some f) ->
               exists m3, popTxBuffer m2 = Some (Some f, m3)).
Proof.
  intros HN Hh Heq.
  set (m1 := set_tailTxBuffer (tailTxBuffer m - 1) (ev_print pop_empty_text m)).
  assert (Hb1 : tail_behind_head m1) by (left; cbn; lia).
  assert (HN1 : 0 <= macBufferSize m1) by (cbn; lia).
  assert (Hh1 : 0 <= headTxBuffer m1 <= macBufferSize m1) by (cbn; lia).
  exists m1. split.
  { unfold popTxBuffer. rewrite Heq, Z.eqb_refl. reflexivity. }
  split; [reflexivity |].
  split; [exact (getTXBufferSize_behind m1 HN1 Hh1 Hb1) |].
  split; [exact (BUFFER_IS_FULL_behind m1 HN1 Hh1 Hb1) |].
  intros fs.
  destruct (pushAll_behind fs m1 HN1 Hh1 Hb1)
    as (m2 & Hp & Hb2 & Hh2 & HN2 & Hs2 & _).
  change (headTxBuffer m1) with (headTxBuffer m) in Hh2.
  change (macBufferSize m1) with (macBufferSize m) in HN2.
  change (schedTXBuffer m1) with (schedTXBuffer m) in Hs2.
  assert (HN2' : 0 <= macBufferSize m2) by lia.
  assert (Hh2' : 0 <= headTxBuffer m2 <= macBufferSize m2) by lia.
  assert (Hne : tailTxBuffer m2 <> headTxBuffer m2).
  { destruct Hb2 as [Ht | [H0 Ht]]; lia. }
  assert (Hslot : slot (headTxBuffer m2) m2 = slot (headTxBuffer m) m).
  { unfold slot. now rewrite Hh2, Hs2. }
  exists m2. split; [exact Hp |]. split; [exact Hs2 |].
  split; [rewrite <- HN2; exact (getTXBufferSize_behind m2 HN2' Hh2' Hb2) |].
  split; [exact (BUFFER_IS_FULL_behind m2 HN2' Hh2' Hb2) |].
  split.
  { intros msg. apply pushFrameIntoBuffer_full.
    exact (BUFFER_IS_FULL_behind m2 HN2' Hh2' Hb2). }
  split.
  - intros m3. rewrite (popTxBuffer_nonempty m2 Hne).
    destruct (slot (headTxBuffer m2) m2) as [[f |] |]; discriminate.
  - intros f Hf. rewrite (popTxBuffer_nonempty m2 Hne), Hslot, Hf.
    eexists. reflexivity.
Qed.

Lemma popTxBuffer_empty_then_full_witness :
  exists m1,
    popTxBuffer drainedOne = Some (None, m1)
    /\ tailTxBuffer drainedOne = 0
    /\ tailTxBuffer m1 = -1
    /\ getTXBufferSize m1 = 1
    /\ BUFFER_IS_FULL m1 = true
    /\ (exists m2, pushBuffer (Some frameB) m1 = (0, m2))
    /\ (exists m3, popTxBuffer m1 = Some (Some frameA, m3)).
Proof.
  destruct (popTxBuffer_empty_then_full drainedOne)
    as (m1 & Hpop & Ht & Hsize & Hfull & Hnext).
  - vm_compute. discriminate.
  - vm_compute. split; discriminate.
  - reflexivity.
  - exists m1. split; [exact Hpop |]. split; [reflexivity |].
    split; [exact Ht |]. split; [exact Hsize |]. split; [exact Hfull |].
    split.
    + destruct (Hnext [frameB]) as (m2 & Hpush & _).
      cbn [pushAll length replicate] in Hpush.
      destruct (pushBuffer (Some frameB) m1) as [r m2'].
      injection Hpush as -> ->. exists m2. reflexivity.
    + destruct (Hnext []) as (m2 & Hpush & _ & _ & _ & _ & _ & Hstale).
      cbn in Hpush. injection Hpush as <-.
      apply Hstale. reflexivity.
Defined.

(** C5.  With the head index equal to the tail index, popTxBuffer returns
    [NULL] whatever the slot under the head still holds, writes its
    complaint to [ev], and neither sends anything nor touches the head, the
    slots, the cached air time or the redundancy. *)
Theorem popTxBuffer_empty_returns_NULL (m : Mac) :
  headTxBuffer m = tailTxBuffer m ->
  exists m1,
    popTxBuffer m = Some (None, m1)
    /\ ev m1 = ev m ++ [pop_empty_text]
    /\ headTxBuffer m1 = headTxBuffer m
    /\ schedTXBuffer m1 = schedTXBuffer m
    /\ dataTXtime m1 = dataTXtime m
    /\ redundancy m1 = redundancy m
    /\ outbox m1 = outbox m.
Proof.
  intros Heq. unfold popTxBuffer. rewrite <- Heq, Z.eqb_refl.
  eexists. split; [reflexivity |]. cbn. repeat split.
Qed.

Lemma popTxBuffer_empty_returns_NULL_witness :
  slot (headTxBuffer drainedOne) drainedOne = Some (Some frameA)
  /\ exists m1,
       popTxBuffer drainedOne = Some (None, m1)
       /\ ev m1 = [pop_empty_text]
       /\ outbox m1 = outbox drainedOne.
Proof.
  split; [reflexivity |].
  destruct (popTxBuffer_empty_returns_NULL drainedOne)
    as (m1 & Hpop & Hev & _ & _ & _ & _ & Hout).
  - reflexivity.
  - exists m1. split; [exact Hpop |]. split; [exact Hev | exact Hout].
Defined.

(** ** The ring as a bounded FIFO *)

Lemma ring_succ (M a : Z) :
  0 <= a < M -> Z.rem (a + 1) M = (a + 1) mod M.
Proof. intros H. apply Z.rem_mod_nonneg; lia. Qed.

Lemma ring_succ_cases (M a : Z) :
  0 <= a < M -> (a + 1) mod M = if a =? M - 1 then 0 else a + 1.
Proof.
  intros H. destruct (Z.eqb_spec a (M - 1)) as [-> | Hne].
  - replace (M - 1 + 1) with M by lia. apply Z.mod_same. lia.
  - apply Z.mod_small. lia.
Qed.

Lemma ring_offset_inj (M h j k : Z) :
  0 <= j < M -> 0 <= k < M -> (h + j) mod M = (h + k) mod M -> j = k.
Proof.
  intros Hj Hk Heq.
  assert (H : (j - k) mod M = 0).
  { replace (j - k) with ((h + j) - (h + k)) by lia.
    rewrite Zminus_mod, Heq, Z.sub_diag. apply Z.mod_0_l. lia. }
  apply Z.mod_divide in H; [| lia]. destruct H as [c Hc].
  assert (c = 0) by nia. lia.
Qed.

Lemma rep_getTXBufferSize (m : Mac) (q : list MAC_GenericFrame) :
  ring_rep m q -> getTXBufferSize m = Z.of_nat (length q).
Proof.
  intros [HN _ Hh Hq Ht _]. unfold getTXBufferSize, MAC_BUFFER_ARRAY_SIZE.
  rewrite Ht.
  set (M := macBufferSize m + 1) in *.
  set (h := headTxBuffer m) in *. set (n := Z.of_nat (length q)) in *.
  assert (Hn : 0 <= n) by (subst n; lia).
  destruct (Z_lt_ge_dec (h + n) M) as [Hlt | Hge].
  - rewrite Z.mod_small by lia.
    destruct (Z.ltb_spec (h + n - h) 0); lia.
  - replace ((h + n) mod M) with (h + n - M).
    + destruct (Z.ltb_spec (h + n - M - h) 0); lia.
    + apply Z.mod_unique with 1; lia.
Qed.

Lemma slot_store_same (i : Z) (f : MAC_GenericFrame) (m : Mac) :
  0 <= i -> (Z.to_nat i < length (schedTXBuffer m))%nat ->
  slot i (store i f m) = Some (Some f).
Proof.
  intros Hi Hlen. unfold slot, store.
  destruct (Z.ltb_spec i 0); [lia |]. cbn.
  now apply list_lookup_insert_eq.
Qed.

Lemma slot_store_other (i j : Z) (f : MAC_GenericFrame) (m : Mac) :
  0 <= i -> 0 <= j -> i <> j -> slot j (store i f m) = slot j m.
Proof.
  intros Hi Hj Hne. unfold slot, store.
  destruct (Z.ltb_spec i 0); [lia |]. destruct (Z.ltb_spec j 0); [lia |]. cbn.
  apply list_lookup_insert_ne. lia.
Qed.

Lemma rep_initialize
  (sleepI listenI rndOffset : double) (maxFrame N overhead selfId : Z)
  (dataRate delayCSValid : double) (phy : Z) (drift : double) :
  0 <= N ->
  ring_rep (initialize sleepI listenI rndOffset maxFrame N overhead selfId
              dataRate delayCSValid phy drift) [].
Proof.
  intros HN. constructor; cbn; try lia.
  - now rewrite length_replicate.
  - symmetry. apply Z.mod_small. lia.
  - intros k f Hk. discriminate.
Qed.

Lemma rep_pushBuffer (f : MAC_GenericFrame) (m : Mac)
  (q : list MAC_GenericFrame) :
  ring_rep m q ->
  exists m',
    pushBuffer (Some f) m
    = ((if Z.of_nat (length q) <? macBufferSize m then 1 else 0), m')
    /\ macBufferSize m' = macBufferSize m
    /\ ring_rep m'
         (if Z.of_nat (length q) <? macBufferSize m then q ++ [f] else q).
Proof.
  intros [HN Hlen Hh Hq Ht Hslots].
  unfold pushBuffer, MAC_BUFFER_ARRAY_SIZE. cbn.
  set (M := macBufferSize m + 1) in *.
  set (h := headTxBuffer m) in *. set (n := Z.of_nat (length q)) in *.
  assert (Hn : 0 <= n) by (subst n; lia).
  assert (Htr : 0 <= tailTxBuffer m < M).
  { rewrite Ht. apply Z.mod_pos_bound. lia. }
  rewrite (ring_succ M (tailTxBuffer m) Htr).
  assert (Ht1 : (tailTxBuffer m + 1) mod M = (h + (n + 1)) mod M).
  { rewrite Ht, Z.add_mod_idemp_l by lia. f_equal. lia. }
  set (t := tailTxBuffer m) in *. set (t1 := (t + 1) mod M) in *.
  assert (Hprev : (if t1 =? 0 then M - 1 else t1 - 1) = t).
  { subst t1. rewrite (ring_succ_cases M t Htr).
    destruct (Z.eqb_spec t (M - 1)); cbn; [lia |].
    destruct (Z.eqb_spec (t + 1) 0); lia. }
  assert (Hh0 : h = (h + 0) mod M) by (rewrite Z.add_0_r, Z.mod_small; lia).
  destruct (Z.ltb_spec n (macBufferSize m)) as [Hroom | Hfull].
  - assert (Hne : t1 <> h).
    { intros Heq.
      assert (E : (h + (n + 1)) mod M = (h + 0) mod M) by congruence.
      apply ring_offset_inj in E; subst M; lia. }
    destruct (Z.eqb_spec t1 h) as [| _]; [contradiction |].
    exists (store t f (set_tailTxBuffer t1 m)). split.
    { f_equal. now destruct (t1 =? 0); rewrite <- Hprev. }
    split.
    { unfold store. now destruct (t <? 0). }
    assert (Hbuf : forall j, 0 <= j -> j <> t ->
                     slot j (store t f (set_tailTxBuffer t1 m)) = slot j m).
    { intros j Hj Hjt. rewrite slot_store_other by lia. reflexivity. }
    assert (Hkeep :
      macBufferSize (store t f (set_tailTxBuffer t1 m)) = macBufferSize m
      /\ headTxBuffer (store t f (set_tailTxBuffer t1 m)) = h
      /\ tailTxBuffer (store t f (set_tailTxBuffer t1 m)) = t1
      /\ length (schedTXBuffer (store t f (set_tailTxBuffer t1 m)))
         = length (schedTXBuffer m)).
    { unfold store. destruct (t <? 0); cbn; rewrite ?length_insert; auto. }
    destruct Hkeep as (KN & Kh & Kt & Kl).
    constructor; rewrite ?KN, ?Kh, ?Kt, ?Kl; fold M;
      rewrite ?length_app; cbn [length]; try lia.
    + rewrite Ht1. f_equal. lia.
    + intros k f' Hk.
      destruct (decide (k = length q)) as [-> | Hkn].
      * rewrite lookup_app_r, Nat.sub_diag in Hk by lia.
        injection Hk as <-. fold n. rewrite <- Ht.
        apply slot_store_same; [lia |]. cbn. rewrite Hlen. lia.
      * assert (Hkq : (k < length q)%nat).
        { apply lookup_lt_Some in Hk. rewrite length_app in Hk. cbn in Hk. lia. }
        rewrite lookup_app_l in Hk by assumption.
        rewrite Hbuf; [now apply Hslots | |].
        -- apply Z.mod_pos_bound. lia.
        -- subst t. rewrite Ht. intros Heq.
           apply ring_offset_inj in Heq; subst n M; lia.
  - assert (HnN : n = macBufferSize m) by lia.
    assert (Heq : t1 = h).
    { rewrite Ht1. replace (h + (n + 1)) with (h + 1 * M) by (subst M; lia).
      rewrite Z.mod_add by lia. apply Z.mod_small. lia. }
    rewrite Heq, Z.eqb_refl. rewrite <- Heq.
    exists (set_tailTxBuffer t (set_tailTxBuffer t1 m)). split.
    { f_equal. now destruct (t1 =? 0); rewrite <- Hprev. }
    split; [reflexivity |].
    constructor; cbn; fold M h n; try lia; assumption.
Qed.

Lemma rep_popTxBuffer (f : MAC_GenericFrame) (m : Mac)
  (q : list MAC_GenericFrame) :
  ring_rep m (f :: q) ->
  exists m',
    popTxBuffer m = Some (Some f, m')
    /\ macBufferSize m' = macBufferSize m
    /\ ring_rep m' q.
Proof.
  intros [HN Hlen Hh Hq Ht Hslots]. cbn [length] in *.
  set (M := macBufferSize m + 1) in *.
  set (h := headTxBuffer m) in *. set (n := Z.of_nat (length q)) in *.
  assert (Hn : 0 <= n) by (subst n; lia).
  assert (Hh0 : h = (h + 0) mod M) by (rewrite Z.add_0_r, Z.mod_small; lia).
  assert (Hne : tailTxBuffer m <> headTxBuffer m).
  { fold h. rewrite Ht. intros Heq.
    assert (E : (h + Z.of_nat (S (length q))) mod M = (h + 0) mod M)
      by congruence.
    apply ring_offset_inj in E; subst n M; lia. }
  assert (Hslot0 : slot h m = Some (Some f)).
  { rewrite Hh0. apply (Hslots O f). reflexivity. }
  rewrite (popTxBuffer_nonempty m Hne). fold h. rewrite Hslot0.
  eexists. split; [reflexivity |]. split; [reflexivity |].
  unfold MAC_BUFFER_ARRAY_SIZE. fold M h.
  rewrite (ring_succ M h) by (subst M; lia).
  constructor; cbn; fold M h n; try lia.
  - assert (0 <= (h + 1) mod M < M) by (apply Z.mod_pos_bound; lia). lia.
  - rewrite Ht, Z.add_mod_idemp_l by lia. f_equal. lia.
  - intros k f' Hk. rewrite Z.add_mod_idemp_l by lia.
    replace (h + 1 + Z.of_nat k) with (h + Z.of_nat (S k)) by lia.
    apply (Hslots (S k) f'). exact Hk.
Qed.

(** On every sequence of pushes and pops that never pops an empty queue,
    the ring returns what a FIFO queue of capacity [macBufferSize] returns,
    and its size is the number of frames that queue holds. *)
Lemma runQueue_fifo (ops : list QueueOp) (m : Mac)
  (q rs : list MAC_GenericFrame) :
  ring_rep m q ->
  fifoRun (macBufferSize m) ops q = Some rs ->
  exists m' q',
    runQueue ops m = Some (Some <$> rs, m')
    /\ ring_rep m' q'
    /\ getTXBufferSize m' = Z.of_nat (length q').
Proof.
  revert m q rs. induction ops as [| [f |] ops IH]; intros m q rs Hrep Hrun.
  - injection Hrun as <-. exists m, q. cbn.
    split; [reflexivity |].
    split; [assumption | now apply rep_getTXBufferSize].
  - cbn [fifoRun] in Hrun. cbn [runQueue].
    destruct (rep_pushBuffer f m q Hrep) as (m1 & Hpush & HN1 & Hrep1).
    rewrite Hpush. cbn [snd]. apply (IH m1 _ rs Hrep1).
    now rewrite HN1.
  - cbn [fifoRun] in Hrun. cbn [runQueue].
    destruct q as [| f q]; [discriminate |].
    destruct (fifoRun (macBufferSize m) ops q) as [rs' |] eqn:Hrs;
      [| discriminate].
    injection Hrun as <-.
    destruct (rep_popTxBuffer f m q Hrep) as (m1 & Hpop & HN1 & Hrep1).
    rewrite Hpop. rewrite <- HN1 in Hrs.
    destruct (IH m1 q rs' Hrep1 Hrs) as (m' & q' & Hrun' & Hrep' & Hsize').
    exists m', q'. rewrite Hrun'. split; [reflexivity |].
    split; assumption.
Qed.

Lemma size_of_indices_ok (m : Mac) :
  indices_ok m -> 0 <= getTXBufferSize m <= macBufferSize m.
Proof.
  intros (HN & Hh & Ht). unfold getTXBufferSize, MAC_BUFFER_ARRAY_SIZE.
  destruct (Z.ltb_spec (tailTxBuffer m - headTxBuffer m) 0); lia.
Qed.

Lemma ring_rem_bound (M a : Z) : 0 < M -> 0 <= a -> 0 <= Z.rem a M < M.
Proof. intros HM Ha. apply Z.rem_bound_pos; lia. Qed.

Lemma pushBuffer_indices_ok (f : option MAC_GenericFrame) (m : Mac) :
  indices_ok m -> indices_ok (snd (pushBuffer f m)).
Proof.
  intros (HN & Hh & Ht). destruct f as [f |]; [| now repeat split].
  unfold pushBuffer, MAC_BUFFER_ARRAY_SIZE. cbn.
  pose proof (ring_rem_bound (macBufferSize m + 1) (tailTxBuffer m + 1))
    as Hrem.
  destruct (Z.eqb_spec (Z.rem (tailTxBuffer m + 1) (macBufferSize m + 1))
              (headTxBuffer m)) as [Heq | Hne];
    destruct (Z.eqb_spec (Z.rem (tailTxBuffer m + 1) (macBufferSize m + 1)) 0);
    unfold store, indices_ok; cbn;
    repeat match goal with |- context [if ?b then _ else _] => destruct b end;
    cbn; lia.
Qed.

Lemma popTxBuffer_indices_ok (m m' : Mac) (r : option MAC_GenericFrame) :
  indices_ok m -> popTxBuffer m = Some (r, m') -> indices_ok m'.
Proof.
  intros (HN & Hh & Ht) Hpop. unfold popTxBuffer in Hpop.
  destruct (Z.eqb_spec (tailTxBuffer m) (headTxBuffer m)) as [Heq | Hne].
  - injection Hpop as <- <-. unfold indices_ok. cbn. lia.
  - destruct (slot (headTxBuffer m) m) as [[f |] |]; try discriminate.
    injection Hpop as <- <-. unfold indices_ok, MAC_BUFFER_ARRAY_SIZE. cbn.
    pose proof (ring_rem_bound (macBufferSize m + 1) (headTxBuffer m + 1)).
    lia.
Qed.

(** Whatever is pushed and popped, pops of an empty queue included, the
    size getTXBufferSize reports lies between 0 and [macBufferSize]. *)
Lemma runQueue_size_bounded (ops : list QueueOp) (m m' : Mac)
  (rs : list (option MAC_GenericFrame)) :
  indices_ok m ->
  runQueue ops m = Some (rs, m') ->
  0 <= getTXBufferSize m' <= macBufferSize m'.
Proof.
  revert m rs. induction ops as [| [f |] ops IH]; intros m rs Hok Hrun.
  - injection Hrun as <- <-. now apply size_of_indices_ok.
  - cbn [runQueue] in Hrun.
    exact (IH _ rs (pushBuffer_indices_ok (Some f) m Hok) Hrun).
  - cbn [runQueue] in Hrun.
    destruct (popTxBuffer m) as [[r m1] |] eqn:Hpop; [| discriminate].
    destruct (runQueue ops m1) as [[rs1 m2] |] eqn:Hrest; [| discriminate].
    injection Hrun as <- <-.
    exact (IH m1 rs1 (popTxBuffer_indices_ok m m1 r Hok Hpop) Hrest).
Qed.

(** The size never leaves the bounds on the way either: at the start and
    after every operation. *)
Lemma macBufferSize_pushBuffer (f : option MAC_GenericFrame) (m : Mac) :
  macBufferSize (snd (pushBuffer f m)) = macBufferSize m.
Proof.
  destruct f as [f |]; [| reflexivity]. unfold pushBuffer, store.
  repeat match goal with
         | |- context [if ?b then _ else _] => destruct b
         end; reflexivity.
Qed.

Lemma macBufferSize_popTxBuffer (m m' : Mac) (r : option MAC_GenericFrame) :
  popTxBuffer m = Some (r, m') -> macBufferSize m' = macBufferSize m.
Proof.
  unfold popTxBuffer. destruct (tailTxBuffer m =? headTxBuffer m).
  - now intros [= <- <-].
  - destruct (slot (headTxBuffer m) m) as [[f |] |]; try discriminate.
    now intros [= <- <-].
Qed.

Lemma runQueue_capacity (ops : list QueueOp) (m m' : Mac)
  (rs : list (option MAC_GenericFrame)) :
  runQueue ops m = Some (rs, m') -> macBufferSize m' = macBufferSize m.
Proof.
  revert m rs. induction ops as [| [f |] ops IH]; intros m rs Hrun.
  - now injection Hrun as <- <-.
  - cbn [runQueue] in Hrun. rewrite (IH _ _ Hrun).
    apply macBufferSize_pushBuffer.
  - cbn [runQueue] in Hrun.
    destruct (popTxBuffer m) as [[r m1] |] eqn:Hpop; [| discriminate].
    destruct (runQueue ops m1) as [[rs1 m2] |] eqn:Hrest; [| discriminate].
    injection Hrun as <- <-. rewrite (IH _ _ Hrest).
    exact (macBufferSize_popTxBuffer m m1 r Hpop).
Qed.

Lemma rep_BUFFER_IS_EMPTY (m : Mac) (q : list MAC_GenericFrame) :
  ring_rep m q -> BUFFER_IS_EMPTY m = bool_decide (q = []).
Proof.
  intros [HN _ Hh Hq Ht _]. unfold BUFFER_IS_EMPTY. rewrite Ht.
  destruct q as [| f q].
  - cbn [length]. rewrite Z.add_0_r, Z.mod_small by lia.
    now rewrite Z.eqb_refl.
  - rewrite bool_decide_eq_false_2 by discriminate.
    apply Z.eqb_neq. intros Heq.
    assert (E : (headTxBuffer m + 0) mod (macBufferSize m + 1)
                = (headTxBuffer m + Z.of_nat (length (f :: q)))
                  mod (macBufferSize m + 1)).
    { rewrite <- Heq, Z.add_0_r, Z.mod_small; lia. }
    apply ring_offset_inj in E; cbn [length] in *; lia.
Qed.

(** One run of the operations as the module issues them, from a ring that
    holds the frames [q]: no operation fails, every pop that is issued
    returns a frame, the ring holds some frames [q'] at the end, and the
    frames popped followed by [q'] are [q] followed by the frames accepted. *)
Lemma runCalls_fifo (ops : list QueueOp) (m : Mac) (q : list MAC_GenericFrame) :
  ring_rep m q ->
  exists rs m' q',
    runCalls ops m = Some (rs, m')
    /\ macBufferSize m' = macBufferSize m
    /\ ring_rep m' q'
    /\ ~ (Popped None ∈ rs)
    /\ poppedFrames rs ++ q' = q ++ acceptedFrames ops rs.
Proof.
  revert m q. induction ops as [| [f |] ops IH]; intros m q Hrep.
  - exists [], m, q. cbn. rewrite app_nil_r.
    split; [reflexivity |]. split; [reflexivity |]. split; [assumption |].
    split; [apply not_elem_of_nil | reflexivity].
  - cbn [runCalls].
    destruct (rep_pushBuffer f m q Hrep) as (m1 & Hpush & HN1 & Hrep1).
    rewrite Hpush.
    destruct (IH m1 _ Hrep1) as (rs & m' & q' & Hrun & HN & Hrep' & Hnn & Hfifo).
    rewrite Hrun. eexists _, m', q'. split; [reflexivity |].
    split; [congruence |]. split; [assumption |]. split.
    { intros Hin. apply elem_of_cons in Hin as [Hin | Hin];
        [discriminate | contradiction]. }
    cbn [poppedFrames acceptedFrames]. rewrite Hfifo.
    destruct (Z.of_nat (length q) <? macBufferSize m); cbn.
    + now rewrite <- app_assoc.
    + reflexivity.
  - cbn [runCalls]. unfold popIfNotEmpty.
    rewrite (rep_BUFFER_IS_EMPTY m q Hrep).
    destruct q as [| f q].
    + rewrite bool_decide_eq_true_2 by reflexivity. cbn [negb].
      destruct (IH m _ Hrep) as (rs & m' & q' & Hrun & HN & Hrep' & Hnn & Hfifo).
      rewrite Hrun. eexists _, m', q'. split; [reflexivity |].
      split; [assumption |]. split; [assumption |]. split.
      { intros Hin. apply elem_of_cons in Hin as [Hin | Hin];
          [discriminate | contradiction]. }
      exact Hfifo.
    + rewrite bool_decide_eq_false_2 by discriminate. cbn [negb].
      destruct (rep_popTxBuffer f m q Hrep) as (m1 & Hpop & HN1 & Hrep1).
      rewrite Hpop.
      destruct (IH m1 _ Hrep1) as (rs & m' & q' & Hrun & HN & Hrep' & Hnn & Hfifo).
      rewrite Hrun. eexists _, m', q'. split; [reflexivity |].
      split; [congruence |]. split; [assumption |]. split.
      { intros Hin. apply elem_of_cons in Hin as [Hin | Hin];
          [discriminate | contradiction]. }
      cbn [poppedFrames acceptedFrames]. rewrite <- !app_comm_cons. f_equal.
      exact Hfifo.
Qed.

Lemma acceptedFrames_pushed (ops : list QueueOp) (rs : list QueueResult) :
  acceptedFrames ops rs ⊆ pushedFrames ops.
Proof.
  revert rs. induction ops as [| [f |] ops IH]; intros rs.
  - destruct rs; apply list_subseteq_nil.
  - destruct rs as [| [r | r |] rs]; cbn;
      try apply list_subseteq_nil;
      try (intros x Hx; right; now apply (IH rs)).
    destruct (r =? 1); intros x Hx.
    + apply elem_of_cons in Hx as [-> | Hx]; [left | right; now apply (IH rs)].
    + right. now apply (IH rs).
  - destruct rs as [| r rs]; cbn; [apply list_subseteq_nil |]. apply IH.
Qed.

(** C4.  From the state initialize leaves, for a capacity [N] of at least
    0 and every sequence of pushes and pops: the size getTXBufferSize
    reports afterwards lies in [[0, N]], whatever the sequence, pops of an
    empty queue included.  Issued as the module issues them (popTxBuffer is
    protected, and its callers test [BUFFER_IS_EMPTY] first), the
    operations all return, every pop that is issued returns a frame, and the
    frames popped, followed by the frames the ring holds at the end, are
    exactly the frames whose push was accepted, in the order of the pushes:
    frames leave in the order they came, each one once, and each was pushed
    before.  The statement covers every sequence, so it covers every
    prefix of one. *)
Theorem queue_bounded_fifo
  (sleepI listenI rndOffset : double) (maxFrame N overhead selfId : Z)
  (dataRate delayCSValid : double) (phy : Z) (drift : double)
  (ops : list QueueOp) :
  0 <= N ->
  let m0 := initialize sleepI listenI rndOffset maxFrame N overhead selfId
              dataRate delayCSValid phy drift in
  getTXBufferSize m0 = 0
  /\ (forall rs m',
        runQueue ops m0 = Some (rs, m') -> 0 <= getTXBufferSize m' <= N)
  /\ exists rs m' q',
       runCalls ops m0 = Some (rs, m')
       /\ ring_rep m' q'
       /\ getTXBufferSize m' = Z.of_nat (length q')
       /\ 0 <= getTXBufferSize m' <= N
       /\ ~ (Popped None ∈ rs)
       /\ poppedFrames rs ++ q' = acceptedFrames ops rs
       /\ poppedFrames rs ⊆ pushedFrames ops.
Proof.
  intros HN m0.
  assert (Hrep0 : ring_rep m0 []) by (apply rep_initialize; exact HN).
  split; [reflexivity |]. split.
  - intros rs m' Hrun.
    assert (Hok : indices_ok m0) by (repeat split; cbn; lia).
    pose proof (runQueue_capacity ops m0 m' rs Hrun) as Hcap.
    change (macBufferSize m0) with N in Hcap. rewrite <- Hcap.
    exact (runQueue_size_bounded ops m0 m' rs Hok Hrun).
  - destruct (runCalls_fifo ops m0 [] Hrep0)
      as (rs & m' & q' & Hrun & Hcap & Hrep & Hnn & Hfifo).
    change (macBufferSize m0) with N in Hcap. cbn [app] in Hfifo.
    exists rs, m', q'. split; [exact Hrun |]. split; [exact Hrep |].
    pose proof (rep_getTXBufferSize m' q' Hrep) as Hsize.
    split; [exact Hsize |]. split.
    { rewrite Hsize. destruct Hrep as [_ _ _ Hq _ _]. lia. }
    split; [exact Hnn |]. split; [exact Hfifo |].
    intros f Hf. apply (acceptedFrames_pushed ops rs).
    rewrite <- Hfifo. apply elem_of_app. now left.
Qed.

Lemma queue_bounded_fifo_witness :
  0 <= 1
  /\ (fst <$> runCalls [Push frameA; Pop; Push frameB; Pop; Pop; Pop]
                capacityOne)
     = Some [Pushed 1; Popped (Some frameA); Pushed 1;
             Popped (Some frameB); NotCalled; NotCalled]
  /\ exists rs m' q',
       runCalls [Push frameA; Pop; Push frameB; Pop; Pop; Pop] capacityOne
       = Some (rs, m')
       /\ ring_rep m' q'
       /\ getTXBufferSize m' = 0
       /\ poppedFrames rs ++ q' = [frameA; frameB].
Proof.
  split; [lia |]. split; [vm_compute; reflexivity |].
  destruct (queue_bounded_fifo (dlit 1 1) (dlit 1 10) (dlit 1 100) 128 1 10 7
              (dlit 2 1) (dlit 1 1) 6 (dlit 1 1)
              [Push frameA; Pop; Push frameB; Pop; Pop; Pop])
    as (_ & _ & rs & m' & q' & Hrun & Hrep & _ & _ & _ & Hfifo & _); [lia |].
  exists rs, m', q'. split; [exact Hrun |]. split; [exact Hrep |].
  rewrite Hfifo. vm_compute in Hrun. injection Hrun as <- <-.
  split; reflexivity.
Defined.
(** ** The burst of copies *)

Lemma sendCopies_outbox (n : nat) (f : MAC_GenericFrame) (i : Z) (m : Mac) :
  sendCopies n f i m
  = set_outbox
      (outbox m
       ++ flat_map (copyMessages f (dataTXtime m) (cpuClockDrift m) (epsilon m))
            (seqZ i (Z.of_nat n))) m.
Proof.
  revert i m. induction n as [| n IH]; intros i m.
  - cbn. rewrite app_nil_r. now destruct m.
  - cbn [sendCopies]. rewrite IH.
    rewrite (seqZ_cons i (Z.of_nat (S n))) by lia.
    replace (Z.pred (Z.of_nat (S n))) with (Z.of_nat n) by lia.
    replace (Z.succ i) with (i + 1) by lia.
    cbn. rewrite <- !app_assoc. reflexivity.
Qed.

Lemma sendCopies_fields (n : nat) (f : MAC_GenericFrame) (i : Z) (m : Mac) :
  headTxBuffer (sendCopies n f i m) = headTxBuffer m
  /\ dataTXtime (sendCopies n f i m) = dataTXtime m
  /\ redundancy (sendCopies n f i m) = redundancy m.
Proof. rewrite sendCopies_outbox. repeat split. Qed.

(** [(int) (x + 0.5)] is the integer nearest to [x], the upper one on a
    tie, for every binary64 number [x] from 0 up to, but excluding,
    2^31 - 0.5, other than the one just below 0.5. *)
Lemma double_to_int_round (x : double) :
  valid_binary prec emax x = true ->
  is_finite x = true ->
  (0 <= value x)%Q -> (value x < inject_Z (2 ^ 31) - (1 # 2))%Q ->
  x <> below_half ->
  nearest_ties_up (value x) (double_to_int (x + d_half)%D)
  /\ 0 <= double_to_int (x + d_half)%D <= INT_MAX.
Proof.
  intros Hv Hfin Hlo Hhi Hne.
  destruct (Qlt_le_dec (value x) (1 # 2)) as [Hsmall | Hbig].
  - rewrite (double_to_int_small x Hv Hfin Hlo Hsmall Hne).
    split; [| unfold INT_MAX; lia].
    unfold nearest_ties_up. split.
    + apply Qle_trans with 0%Q; [easy | assumption].
    + exact Hsmall.
  - destruct (double_to_int_nearest x Hv Hbig Hhi) as [Hn Hr].
    split; [exact Hn | lia].
Qed.

(** ** Air time and redundancy *)



(** The same pop where the double arithmetic shows.  With a sleep interval
    of 1 s, a 250 kbps radio and 20 bytes on air, the air time is the
    double nearest to 0.00064 and the quotient falls just below 1562.5:
    the redundancy is 1562.  With a sleep interval of 2000000 s the
    quotient is 3125000000, outside the range of [int]: the redundancy is
    [INT_MIN], and sendData sends no copy.  With a sleep interval just
    below 0.5 s and an air time of 1 s the sum with 0.5 is rounded up to
    1: the redundancy is 1. *)
Lemma redundancy_in_double_arithmetic :
  (redundancy ∘ snd <$> popTxBuffer (snd (pushBuffer (Some frame14) fastRadio)))
  = Some 1562
  /\ (redundancy ∘ snd
        <$> popTxBuffer (snd (pushBuffer (Some frame14) longSleeper)))
     = Some INT_MIN
  /\ (frameCopies ∘ outbox
        <$> sendData (snd (pushBuffer (Some frame14) longSleeper)))
     = Some []
  /\ (redundancy ∘ snd
        <$> popTxBuffer (snd (pushBuffer (Some frame119) halfSleeper)))
     = Some 1.
Proof. repeat split; vm_compute; reflexivity. Qed.

Lemma frameCopies_copyMessages (f : MAC_GenericFrame) (t drift eps : double)
  (l : list Z) :
  frameCopies (flat_map (copyMessages f t drift eps) l)
  = (fun i => (f, (int_to_double i * t * drift)%D)) <$> l.
Proof.
  induction l as [| i l IH]; [reflexivity |].
  cbn. f_equal. exact IH.
Qed.

Lemma frameCopies_app (l1 l2 : list Sent) :
  frameCopies (l1 ++ l2) = frameCopies l1 ++ frameCopies l2.
Proof. unfold frameCopies. apply omap_app. Qed.

(** What sendData does with a frame under the head, in state TX or
    DEFAULT: it pops, and unless the redundancy is [INT_MAX] it runs the
    loop [redundancy + 1] times. *)
Lemma sendData_pops (m m1 : Mac) (f : MAC_GenericFrame) :
  macState m = MAC_STATE_TX \/ macState m = MAC_STATE_DEFAULT ->
  tailTxBuffer m <> headTxBuffer m ->
  popTxBuffer m = Some (Some f, m1) ->
  redundancy m1 < INT_MAX ->
  sendData m = Some (sendCopies (Z.to_nat (redundancy m1 + 1)) f 0 m1).
Proof.
  intros Hst Hne Hpop Hmax. unfold sendData, BUFFER_IS_EMPTY.
  destruct (Z.eqb_spec (headTxBuffer m) (tailTxBuffer m)); [congruence |].
  cbn [negb]. rewrite Hpop.
  destruct (Z.eqb_spec (redundancy m1) INT_MAX); [lia |].
  destruct Hst as [-> | ->]; reflexivity.
Qed.


(** ** Cancelling timers *)

Lemma filter_absent (i : nat) (l : list Scheduled) :
  existsb (fun e => Nat.eqb (sid e) i) l = false ->
  filter (fun s => sid s <> i) l = l.
Proof.
  induction l as [| s l IH]; [reflexivity |]. cbn [existsb].
  intros H. apply orb_false_iff in H as [Hs Hl].
  apply Nat.eqb_neq in Hs.
  rewrite filter_cons_True by assumption. now rewrite IH.
Qed.

Lemma set_fes_same (m : Mac) : set_fes (fes m) m = m.
Proof. now destruct m. Qed.

Lemma cancelAndDelete_ptr_eq (p : option nat) (m : Mac) :
  cancelAndDelete_ptr p m = set_fes (without p (fes m)) m.
Proof. destruct p as [i |]; cbn; [reflexivity | now rewrite set_fes_same]. Qed.

Lemma cancel_if_pending_eq (p : option nat) (m : Mac) :
  cancel_if_pending p m = set_fes (without p (fes m)) m.
Proof.
  unfold cancel_if_pending. destruct (pending p m) eqn:E.
  - apply cancelAndDelete_ptr_eq.
  - destruct p as [i |]; cbn in *; [| now rewrite set_fes_same].
    rewrite (filter_absent i (fes m) E). now rewrite set_fes_same.
Qed.

Lemma without_elem (p : option nat) (l : list Scheduled) (s : Scheduled) :
  s ∈ without p l <-> s ∈ l /\ Some (sid s) <> p.
Proof.
  destruct p as [i |]; cbn.
  - rewrite list_elem_of_filter. split; intros [H1 H2]; split; auto; congruence.
  - split; [intros H; split; [assumption | discriminate] | tauto].
Qed.

(** ** Channel busy *)

Lemma int_wrap_small (z : Z) : - 2 ^ 31 <= z < 2 ^ 31 -> int_wrap z = z.
Proof. intros Hz. unfold int_wrap. rewrite Z.mod_small; lia. Qed.

Lemma expectRxWindow_small (m : Mac) :
  0 <= maxMacFrameSize m < 2 ^ 27 ->
  expectRxWindow m
  = (int_to_double (2 * maxMacFrameSize m * 8) / (d_1000 * radioDataRate m))%D.
Proof.
  intros H. unfold expectRxWindow.
  rewrite (int_wrap_small (2 * maxMacFrameSize m)) by lia.
  rewrite int_wrap_small by lia. reflexivity.
Qed.

Lemma without_not_pending (p : option nat) (m : Mac) :
  pending p m = false -> without p (fes m) = fes m.
Proof.
  destruct p as [i |]; [| reflexivity]. cbn. apply filter_absent.
Qed.

Lemma expectRx_fes (m : Mac) :
  fes (expectRx m)
  = without (dutyCycleSleepMsg m) (without (dutyCycleWakeupMsg m) (fes m))
    ++ [mkScheduled (nextId m)
          (simTime m + expectRxWindow m * cpuClockDrift m)%D
          (MAC_ControlMessage MAC_SELF_SET_RADIO_SLEEP)].
Proof. unfold expectRx. rewrite !cancel_if_pending_eq. reflexivity. Qed.

Lemma expectRx_fields (m : Mac) :
  headTxBuffer (expectRx m) = headTxBuffer m
  /\ tailTxBuffer (expectRx m) = tailTxBuffer m
  /\ schedTXBuffer (expectRx m) = schedTXBuffer m
  /\ doTx (expectRx m) = doTx m
  /\ dutyCycleSleepMsg (expectRx m) = Some (nextId m)
  /\ macState (expectRx m) = MAC_STATE_EXPECTING_RX.
Proof. unfold expectRx. rewrite !cancel_if_pending_eq. cbn. repeat split. Qed.

(** C3, as amended.  The radio reports the channel busy while the enabled
    module is in state CARRIER_SENSING or DEFAULT and has [doTx] set.  The
    queue is left as it was (indices and slots) and [doTx] stays set; the
    messages the carrier-sense-exit pointer and the two duty-cycle pointers
    refer to are taken out of the future-event set, and nothing else is;
    one sleep message is added and [dutyCycleSleepMsg] points to it; the
    state is EXPECTING_RX.  The sleep message is due at

      simTime + ((double)(2 * maxMacFrameSize * 8) / (1000.0 * radioDataRate))
                * cpuClockDrift

    in the double arithmetic of the source: the time [2 * maxMacFrameSize]
    bytes take at the radio's rate, multiplied by the clock drift.  The
    bytes the physical layer adds to every frame on air are not counted. *)
Theorem carrierBusy_defers (msg : cMessage) (env : Env) (m : Mac) :
  kind msg = RADIO_2_MAC_SENSED_CARRIER ->
  disabled m = false ->
  macState m = MAC_STATE_CARRIER_SENSING \/ macState m = MAC_STATE_DEFAULT ->
  doTx m = true ->
  0 <= maxMacFrameSize m < 2 ^ 27 ->
  exists m',
    handleMessage msg env m = Some m'
    /\ headTxBuffer m' = headTxBuffer m
    /\ tailTxBuffer m' = tailTxBuffer m
    /\ schedTXBuffer m' = schedTXBuffer m
    /\ doTx m' = true
    /\ fes m'
       = without (dutyCycleSleepMsg m)
           (without (dutyCycleWakeupMsg m)
              (without (selfExitCSMsg m) (fes m)))
         ++ [mkScheduled (nextId m)
               (simTime m
                + (int_to_double (2 * maxMacFrameSize m * 8)
                   / (d_1000 * radioDataRate m))
                  * cpuClockDrift m)%D
               (MAC_ControlMessage MAC_SELF_SET_RADIO_SLEEP)]
    /\ dutyCycleSleepMsg m' = Some (nextId m)
    /\ macState m' = MAC_STATE_EXPECTING_RX.
Proof.
  intros Hk Hen Hst HdoTx Hmax.
  exists (carrierBusy m). split.
  { unfold handleMessage. rewrite Hk, Hen. reflexivity. }
  unfold carrierBusy.
  set (m1 := if pending (selfExitCSMsg m) m then _ else m).
  assert (H1 : macState m1 = macState m /\ doTx m1 = doTx m
               /\ headTxBuffer m1 = headTxBuffer m
               /\ tailTxBuffer m1 = tailTxBuffer m
               /\ schedTXBuffer m1 = schedTXBuffer m
               /\ dutyCycleSleepMsg m1 = dutyCycleSleepMsg m
               /\ dutyCycleWakeupMsg m1 = dutyCycleWakeupMsg m
               /\ nextId m1 = nextId m /\ simTime m1 = simTime m
               /\ cpuClockDrift m1 = cpuClockDrift m
               /\ expectRxWindow m1 = expectRxWindow m
               /\ fes m1 = without (selfExitCSMsg m) (fes m)).
  { subst m1. destruct (pending (selfExitCSMsg m) m) eqn:E.
    - rewrite cancelAndDelete_ptr_eq. cbn. repeat split.
    - rewrite (without_not_pending _ _ E). repeat split. }
  destruct H1
    as (Hs1 & Hd1 & Hh1 & Ht1 & Hb1 & Hsl1 & Hw1 & Hn1 & Htime1 & Hdr1
        & Hwin1 & Hf1).
  assert (Hgo : match macState m1 with
                | MAC_STATE_DEFAULT | MAC_STATE_CARRIER_SENSING =>
                    if doTx m1 then expectRx m1 else expectRx m1
                | _ => m1
                end = expectRx m1).
  { rewrite Hs1, Hd1, HdoTx. destruct Hst as [-> | ->]; reflexivity. }
  rewrite Hgo.
  destruct (expectRx_fields m1) as (Eh & Et & Eb & Ed & Es & Est).
  rewrite Eh, Et, Eb, Ed, Es, Est, expectRx_fes.
  rewrite Hh1, Ht1, Hb1, Hd1, Hn1, Hsl1, Hw1, Hf1, Htime1, Hdr1, Hwin1.
  rewrite (expectRxWindow_small m Hmax).
  repeat split. assumption.
Qed.

Lemma carrierBusy_defers_witness :
  let m := after sensingWithPayload driftingMac in
  exists m',
    handleMessage (MAC_ControlMessage RADIO_2_MAC_SENSED_CARRIER) quiet m
    = Some m'
    /\ cpuClockDrift m = dlit 11 10
    /\ headTxBuffer m' = 0
    /\ tailTxBuffer m' = 1
    /\ schedTXBuffer m' = [Some frame69; None; None]
    /\ ((fun s => (sid s, kind (smsg s))) <$> fes m)
       = [ (1%nat, MAC_SELF_SET_RADIO_SLEEP);
           (3%nat, MAC_SELF_EXIT_CARRIER_SENSE);
           (5%nat, MAC_SELF_INITIATE_TX) ]
    /\ ((fun s => (sid s, kind (smsg s))) <$> fes m')
       = [ (5%nat, MAC_SELF_INITIATE_TX);
           (6%nat, MAC_SELF_SET_RADIO_SLEEP) ]
    /\ armed_at MAC_SELF_SET_RADIO_SLEEP m'
       = [(dlit 1 20000 + dlit 1024 1000 * dlit 11 10)%D]
    /\ armed_at MAC_SELF_SET_RADIO_SLEEP m'
       <> [(dlit 1 20000 + dlit 1024 1000)%D]
    /\ macState m' = MAC_STATE_EXPECTING_RX.
Proof.
  intros m.
  destruct (carrierBusy_defers
              (MAC_ControlMessage RADIO_2_MAC_SENSED_CARRIER) quiet m)
    as (m' & Hm' & Hh & Ht & Hb & _ & Hf & _ & Hst).
  - reflexivity.
  - reflexivity.
  - left. reflexivity.
  - reflexivity.
  - vm_compute. split; [discriminate | reflexivity].
  - exists m'. split; [exact Hm' |]. unfold armed_at.
    rewrite Hh, Ht, Hb, Hf, Hst. vm_compute.
    repeat (split; [reflexivity |]). split; [discriminate | reflexivity].
Defined.

(** C3, as the claim states it.  A node with 6 bytes of physical-layer
    overhead, frames of at most 128 bytes, a 2 kbps radio and a clock drift
    of 1.1 hears the channel busy at 0.00005 s while it senses the carrier
    for a transmission.  A frame of 128 bytes takes 0.536 s on air, by the
    module's own account in popTxBuffer; the sleep message is due
    1.024 * 1.1 s after the current time, which is earlier than the
    drift-adjusted air time of two such frames. *)
Lemma carrierBusy_window_below_two_airtimes :
  let m := after sensingWithPayload driftingMac in
  let longest := mkMacFrame 7 3 (maxMacFrameSize m) None in
  exists m' t,
    handleMessage (MAC_ControlMessage RADIO_2_MAC_SENSED_CARRIER) quiet m
    = Some m'
    /\ (dataTXtime ∘ snd <$> popTxBuffer (snd (pushBuffer (Some longest)
                                                 driftingMac))) = Some t
    /\ t = dlit 536 1000
    /\ armed_at MAC_SELF_SET_RADIO_SLEEP m'
       = [(simTime m + dlit 1024 1000 * cpuClockDrift m)%D]
    /\ armed_at MAC_SELF_SET_RADIO_SLEEP m'
       <> [(simTime m + (int_to_double 2 * t) * cpuClockDrift m)%D]
    /\ dlt (simTime m + dlit 1024 1000 * cpuClockDrift m)%D
           (simTime m + (int_to_double 2 * t) * cpuClockDrift m)%D
       = true.
Proof.
  intros m longest. eexists. eexists.
  split; [vm_compute; reflexivity |].
  split; [vm_compute; reflexivity |].
  split; [vm_compute; reflexivity |].
  split; [vm_compute; reflexivity |].
  split; [vm_compute; discriminate |].
  vm_compute. reflexivity.
Qed.
(** ** Frame reception *)

Lemma without_comm_elem (p q : option nat) (l : list Scheduled) (s : Scheduled) :
  s ∈ without p (without q l) <-> s ∈ l /\ Some (sid s) <> p /\ Some (sid s) <> q.
Proof. rewrite !without_elem. tauto. Qed.

Lemma existsb_sid_elem (i : nat) (l : list Scheduled) :
  existsb (fun e => Nat.eqb (sid e) i) l = true
  <-> exists s, s ∈ l /\ sid s = i.
Proof.
  rewrite existsb_exists. split.
  - intros (s & Hin & Heq). exists s. split; [now apply list_elem_of_In |].
    now apply Nat.eqb_eq.
  - intros (s & Hin & Heq). exists s. split; [now apply list_elem_of_In |].
    now apply Nat.eqb_eq.
Qed.

(** C10.  A frame arrives from the radio at the enabled module, in whatever
    state.  The state becomes DEFAULT; the messages the two duty-cycle
    pointers refer to are taken out of the future-event set and nothing
    else is; a sleep message due at the current time is added and
    [dutyCycleSleepMsg] points to it; the payload goes up to the network
    layer.  [selfExitCSMsg] is not touched, and a carrier-sense exit that
    was pending is pending afterwards.  In the run [receptionWhileSensing]
    that exit is then delivered, after the reception, while the module is
    in state DEFAULT. *)
Theorem receiveFrame_leaves_exit_timer
  (msg : cMessage) (env : Env) (m : Mac)
  (rcvFrame : MAC_GenericFrame) (netDataFrame : Network_GenericFrame) :
  kind msg = MAC_FRAME ->
  payload msg = MacPayload rcvFrame ->
  encapsulated rcvFrame = Some netDataFrame ->
  disabled m = false ->
  exists m',
    handleMessage msg env m = Some m'
    /\ macState m' = MAC_STATE_DEFAULT
    /\ fes m'
       = without (dutyCycleSleepMsg m) (without (dutyCycleWakeupMsg m) (fes m))
         ++ [mkScheduled (nextId m) (simTime m)
               (MAC_ControlMessage MAC_SELF_SET_RADIO_SLEEP)]
    /\ dutyCycleSleepMsg m' = Some (nextId m)
    /\ outbox m'
       = outbox m
         ++ [mkSent toNetworkModule d_0 (mkMsg NET_FRAME (NetPayload netDataFrame))]
    /\ selfExitCSMsg m' = selfExitCSMsg m
    /\ (forall i,
          selfExitCSMsg m = Some i -> isScheduled i m = true ->
          dutyCycleWakeupMsg m <> Some i -> dutyCycleSleepMsg m <> Some i ->
          isScheduled i m' = true)
    /\ exists before rx,
         run sensing sampleMac = Some before
         /\ macState before = MAC_STATE_CARRIER_SENSING
         /\ run (sensing ++ [(Arrive (dlit 1 20000) receivedFrame, quiet);
                             (Fire 4, quiet)]) sampleMac = Some rx
         /\ macState rx = MAC_STATE_DEFAULT
         /\ (smsg <$> next_self (fes rx))
            = Some (MAC_ControlMessage MAC_SELF_EXIT_CARRIER_SENSE)
         /\ run receptionWhileSensing sampleMac
            = deliver (Fire 3) quiet rx
         /\ is_Some (run receptionWhileSensing sampleMac).
Proof.
  intros Hk Hp He Hen.
  assert (Hrun : handleMessage msg env m = receiveFrame msg m).
  { unfold handleMessage. now rewrite Hk, Hen. }
  rewrite Hrun. unfold receiveFrame. rewrite Hp, He.
  rewrite !cancel_if_pending_eq. cbn.
  eexists. split; [reflexivity |]. cbn.
  split; [reflexivity |]. split; [reflexivity |]. split; [reflexivity |].
  split; [reflexivity |]. split; [reflexivity |]. split.
  - intros i Hi Hs Hw Hsl. unfold isScheduled in *.
    apply existsb_sid_elem in Hs as (s & Hin & Hid).
    apply existsb_sid_elem. exists s. split; [| assumption]. cbn.
    apply elem_of_app. left. apply without_comm_elem.
    repeat split; [assumption | |]; congruence.
  - eexists. eexists. 
    split; [vm_compute; reflexivity |]. split; [reflexivity |].
    split; [vm_compute; reflexivity |]. split; [reflexivity |].
    split; [reflexivity |]. split; [vm_compute; reflexivity |].
    vm_compute. eexists. reflexivity.
Qed.

Lemma receiveFrame_leaves_exit_timer_witness :
  exists m',
    handleMessage receivedFrame quiet (after sensing sampleMac) = Some m'
    /\ macState (after sensing sampleMac) = MAC_STATE_CARRIER_SENSING
    /\ macState m' = MAC_STATE_DEFAULT
    /\ selfExitCSMsg m' = Some 3%nat
    /\ isScheduled 3 m' = true.
Proof.
  destruct (receiveFrame_leaves_exit_timer receivedFrame quiet
              (after sensing sampleMac) frame69 payload59)
    as (m' & Hm' & Hst & _ & _ & _ & Hexit & Hkeep & _).
  - reflexivity.
  - reflexivity.
  - reflexivity.
  - reflexivity.
  - exists m'. split; [exact Hm' |]. split; [reflexivity |].
    split; [exact Hst |]. split; [rewrite Hexit; reflexivity |].
    apply Hkeep;
      [vm_compute; reflexivity | vm_compute; reflexivity
      | vm_compute; discriminate | vm_compute; discriminate].
Defined.

(** ** A payload for a full queue *)

Lemma handleNetworkLayerFrame_full (msg : cMessage) (env : Env) (m : Mac) :
  BUFFER_IS_FULL m = true -> handleNetworkLayerFrame msg env m = Some m.
Proof. intros Hfull. unfold handleNetworkLayerFrame. now rewrite Hfull. Qed.

Lemma pushFrameIntoBuffer_full_notice (msg : cMessage) (m : Mac) :
  BUFFER_IS_FULL m = true ->
  exists m',
    pushFrameIntoBuffer msg m = Some m'
    /\ headTxBuffer m' = headTxBuffer m
    /\ tailTxBuffer m' = tailTxBuffer m
    /\ schedTXBuffer m' = schedTXBuffer m
    /\ outbox m'
       = outbox m
         ++ [mkSent toNetworkModule d_0
               (MAC_ControlMessage MAC_2_NETWORK_FULL_BUFFER)].
Proof.
  intros Hfull. rewrite (pushFrameIntoBuffer_full msg m Hfull).
  eexists. split; [reflexivity |]. cbn. repeat split.
Qed.

(** C6, on the code.  The queue of capacity 2 holds two frames and a third
    payload arrives from the network layer: handleMessage leaves the module
    exactly as it was, the clock apart; the queue still holds its two
    frames, but nothing is sent to the network layer, so the number of
    full-buffer notifications stays 0.  The notification is sent only where
    the push message itself meets a full queue, there once. *)
Theorem payload_for_full_queue_unnoticed :
  exists m,
    run twoQueued sampleMac = Some m
    /\ macBufferSize m = 2
    /\ getTXBufferSize m = 2
    /\ BUFFER_IS_FULL m = true
    /\ bufferFullNotices (outbox m) = 0%nat
    /\ deliver (Arrive (dlit 3 100000) netFrame) quiet m
       = Some (set_simTime (dlit 3 100000) m)
    /\ bufferFullNotices (outbox (set_simTime (dlit 3 100000) m)) = 0%nat
    /\ exists m',
         handleMessage
           (mkMsg MAC_FRAME_SELF_PUSH_TX_BUFFER (MacPayload frame69)) quiet m
         = Some m'
         /\ getTXBufferSize m' = 2
         /\ schedTXBuffer m' = schedTXBuffer m
         /\ bufferFullNotices (outbox m') = 1%nat.
Proof.
  eexists. split; [vm_compute; reflexivity |].
  repeat (split; [vm_compute; reflexivity |]).
  eexists. split; [vm_compute; reflexivity |].
  repeat split; vm_compute; reflexivity.
Qed.

(** ** Timers of one kind *)

Lemma armed_snoc (k : MsgKind) (l : list Scheduled) (s : Scheduled) :
  length (filter (fun s => kind (smsg s) = k) (l ++ [s]))
  = (length (filter (fun s => kind (smsg s) = k) l)
     + if decide (kind (smsg s) = k) then 1 else 0)%nat.
Proof.
  rewrite filter_app, length_app. f_equal.
  rewrite (filter_singleton _ s l). now destruct (decide _).
Qed.

(** finishDataTransmission cancels nothing: whatever wake-up messages were
    pending stay pending, and one more is added. *)
Lemma finishDataTransmission_adds_wakeup (m : Mac) :
  armed MAC_SELF_WAKEUP_RADIO (finishDataTransmission m)
  = S (armed MAC_SELF_WAKEUP_RADIO m).
Proof.
  unfold finishDataTransmission, armed.
  destruct (macState m); cbn; rewrite ?armed_snoc; cbn;
    repeat case_decide; try lia; try congruence.
  destruct (negb (BUFFER_IS_EMPTY _)); cbn; rewrite ?armed_snoc; cbn;
    repeat case_decide; try lia; congruence.
Qed.

(** C7, on the code.  finishDataTransmission arms a wake-up without
    cancelling any: the number of pending wake-up messages grows by one,
    whatever was pending.  In the run [burstStoppedTwice] the radio reports
    the end of a transmission while the wake-up armed at the previous
    report is still pending, and two wake-up messages are pending
    afterwards.  In the run [payloadAtStartup] the first wake-up is
    delivered between the arrival of a payload and the push of its frame:
    initiateCarrierSense adds a sleep message of its own to the one
    dutyCycle has just armed, and two sleep messages are pending, one of
    them referred to by no pointer. *)
Theorem two_timers_of_one_kind :
  (forall m : Mac,
     armed MAC_SELF_WAKEUP_RADIO (finishDataTransmission m)
     = S (armed MAC_SELF_WAKEUP_RADIO m))
  /\ (armed MAC_SELF_WAKEUP_RADIO <$> run burstStopped sampleMac)
     = Some 1%nat
  /\ (armed MAC_SELF_WAKEUP_RADIO <$> run burstStoppedTwice sampleMac)
     = Some 2%nat
  /\ (armed MAC_SELF_SET_RADIO_SLEEP <$> run payloadAtStartup sampleMac)
     = Some 2%nat.
Proof.
  split; [exact finishDataTransmission_adds_wakeup |].
  repeat split; vm_compute; reflexivity.
Qed.

(** ** Clock drift *)

(** The wake-up finishDataTransmission arms is due [sleepInterval] after
    the current time, whatever the clock drift. *)
Lemma finishDataTransmission_wakeup_time (m : Mac) :
  exists i,
    last (fes (finishDataTransmission m))
    = Some (mkScheduled i (simTime m + sleepInterval m)%D
              (MAC_ControlMessage MAC_SELF_WAKEUP_RADIO))
    /\ dutyCycleWakeupMsg (finishDataTransmission m) = Some i.
Proof.
  unfold finishDataTransmission.
  destruct (macState m); cbn; try (eexists; rewrite last_snoc; split; reflexivity).
  destruct (negb (BUFFER_IS_EMPTY _)); cbn;
    eexists; rewrite last_snoc; split; reflexivity.
Qed.

(** The wake-up dutyCycle arms when the radio goes to sleep is due
    [sleepInterval * cpuClockDrift] after the current time. *)
Lemma dutyCycle_sleep_wakeup_time (m : Mac) :
  macState m = MAC_STATE_DEFAULT ->
  last (fes (dutyCycle SLEEP m))
  = Some (mkScheduled (nextId m)
            (simTime m + sleepInterval m * cpuClockDrift m)%D
            (MAC_ControlMessage MAC_SELF_WAKEUP_RADIO)).
Proof.
  intros Hst. unfold dutyCycle. cbn. rewrite Hst. cbn. rewrite Hst.
  rewrite cancel_if_pending_eq. cbn. now rewrite last_snoc.
Qed.

(** C8, on the code.  The wake-up finishDataTransmission arms is due
    [sleepInterval] after the current time: the clock drift does not enter.
    A node whose clock drift is 1.1 sends a burst and the radio reports the
    end of the transmission at 0.31 s; the wake-up armed then is due at
    1.31 s, and not at 1.41 s, the drift-adjusted [sleepInterval] later. *)
Theorem wakeup_after_burst_not_drifted :
  (forall m : Mac, exists i,
     last (fes (finishDataTransmission m))
     = Some (mkScheduled i (simTime m + sleepInterval m)%D
               (MAC_ControlMessage MAC_SELF_WAKEUP_RADIO))
     /\ dutyCycleWakeupMsg (finishDataTransmission m) = Some i)
  /\ exists m,
       run burstStopped driftingMac = Some m
       /\ simTime m = dlit 31 100
       /\ cpuClockDrift m = dlit 11 10
       /\ DRIFTED_TIME (sleepInterval m) m = dlit 11 10
       /\ armed_at MAC_SELF_WAKEUP_RADIO m = [(simTime m + sleepInterval m)%D]
       /\ armed_at MAC_SELF_WAKEUP_RADIO m = [dlit 131 100]
       /\ armed_at MAC_SELF_WAKEUP_RADIO m
          <> [(simTime m + sleepInterval m * cpuClockDrift m)%D].
Proof.
  split; [exact finishDataTransmission_wakeup_time |].
  eexists. split; [vm_compute; reflexivity |].
  repeat (split; [vm_compute; reflexivity |]).
  vm_compute. discriminate.
Qed.
